(** * Fixed-size vertex cover by simulated annealing

    A shallow embedding of the two search procedures of the repository,
    [simulated_annealing_VertexCover] (the baseline) and
    [improved_simulated_annealing_VertexCover] (degree-biased moves, guarded
    acceptance, early stop), together with the properties their description
    states about them.

    What is modelled, and how:
    - Python sets are objects on a store and the local variables hold
      references to them, so that [best_solution = current_solution] is the
      aliasing it is in the source;
    - exceptions are the [Raise] results of an error monad;
    - the module [random] is a tape of draws threaded through the run
      ([random.sample], [random.choice], [random.random]);
    - temperatures are binary64 floats, the arithmetic of the source written
      with the primitive operations; [np.exp] is a parameter;
    - the graph is what the code reads from networkx: the node list, the edge
      list and the degree view. *)

From Stdlib Require Import ZArith Floats Lia.
From stdpp Require Import base option list gmap sets strings.

Local Open Scope Z_scope.

(** ** Exceptions *)

Inductive exn := ValueError | IndexError | KeyError | ZeroDivisionError.

Inductive result (A : Type) :=
| Ok (a : A)
| Raise (e : exn).
Arguments Ok {A} a.
Arguments Raise {A} e.

#[global] Instance result_ret : MRet result := λ A a, Ok a.
#[global] Instance result_bind : MBind result := λ A B f r,
  match r with
  | Ok a => f a
  | Raise e => Raise e
  end.

(** ** Numbers

    A Python [int] is a [Z]; a Python [float] is a binary64 [float]. An [int]
    that meets a [float] in an arithmetic operation is converted first. *)

(** [float(z)], exact for every count and index of a run (below [2^53]). *)
Definition float_of_Z (z : Z) : float :=
  if z <? 0 then PrimFloat.opp (PrimFloat.of_uint63 (Uint63.of_Z (- z)))
  else PrimFloat.of_uint63 (Uint63.of_Z z).

(** [a / b] on two ints, [b] not zero: true division. *)
Definition int_truediv (a b : Z) : float :=
  PrimFloat.div (float_of_Z a) (float_of_Z b).

(** ** The random module

    The generator is a tape: [raw] holds the integer draws, [unif] the draws
    of [random.random()], [pos] is the read position. Every call consumes
    one cell. *)

Record rng := Rng { raw : nat → nat; unif : nat → float; pos : nat }.

Definition advance (g : rng) : rng :=
  {| raw := raw g; unif := unif g; pos := S (pos g) |}.

(** [_randbelow(n)]: an index below [n]. *)
Definition randbelow (g : rng) (n : nat) : nat * rng :=
  ((raw g (pos g) mod n)%nat, advance g).

(** [random.random()]. *)
Definition random (g : rng) : float * rng := (unif g (pos g), advance g).

(** [random.choice(seq)]: [seq[_randbelow(len(seq))]], [IndexError] on an
    empty sequence. *)
Definition choice {A} (g : rng) (seq : list A) : result (A * rng) :=
  let '(j, g') := randbelow g (length seq) in
  match seq !! j with
  | Some x => Ok (x, g')
  | None => Raise IndexError
  end.

(** The selection of [random.sample], by its contract: [k] elements at
    distinct positions of the population, each drawn among the positions
    that are left. *)
Fixpoint sample_pool {A} (g : rng) (pool : list A) (k : nat) : list A * rng :=
  match k with
  | O => ([], g)
  | S k' =>
      let '(j, g1) := randbelow g (length pool) in
      match pool !! j with
      | Some x =>
          let '(r, g2) := sample_pool g1 (delete j pool) k' in (x :: r, g2)
      | None => ([], g1)
      end
  end.

(** [random.sample(population, k)]: [ValueError] when the sample is larger
    than the population or negative. *)
Definition sample {A} (g : rng) (population : list A) (k : Z)
  : result (list A * rng) :=
  if decide (0 ≤ k ≤ Z.of_nat (length population))
  then Ok (sample_pool g population (Z.to_nat k))
  else Raise ValueError.

(** ** The builtin [max] with a key

    [max(seq, key=f)] keeps the first element whose key is the largest: the
    running maximum is replaced only by a strictly larger key. *)

Fixpoint max_by {A} (key : A → nat) (best : A) (l : list A) : A :=
  match l with
  | [] => best
  | x :: l' => max_by key (if (key best <? key x)%nat then x else best) l'
  end.

(** ** Set objects and references *)

Definition loc := nat.

Section Store.
Context `{Countable V}.

Record store := Store { objs : gmap loc (gset V); next : loc }.

Definition empty_store : store := {| objs := ∅; next := O |}.

Definition deref (m : store) (l : loc) : gset V := objs m !!! l.

Definition alloc (m : store) (s : gset V) : loc * store :=
  (next m, {| objs := <[next m := s]> (objs m); next := S (next m) |}).

Definition assign (m : store) (l : loc) (s : gset V) : store :=
  {| objs := <[l := s]> (objs m); next := next m |}.

(** [set(xs)] *)
Definition set_of_list (m : store) (xs : list V) : loc * store :=
  alloc m (list_to_set xs).

(** [s.copy()] *)
Definition set_copy (m : store) (l : loc) : loc * store :=
  alloc m (deref m l).

(** [s.remove(x)]: in place, [KeyError] when [x] is not a member. *)
Definition set_remove (m : store) (l : loc) (x : V) : result store :=
  if decide (x ∈ deref m l) then Ok (assign m l (deref m l ∖ {[x]}))
  else Raise KeyError.

(** [s.add(x)]: in place. *)
Definition set_add (m : store) (l : loc) (x : V) : store :=
  assign m l ({[x]} ∪ deref m l).

(** [list(s)]: the members, each once, in the set's iteration order. *)
Definition list_of_set (m : store) (l : loc) : list V := elements (deref m l).

(** ** The graph *)

Record Graph := { nodes : list V; edges : list (V * V); degree : V → nat }.

(** [set(graph.edges)] *)
Definition edge_set (G : Graph) : gset (V * V) := list_to_set (edges G).

(** [count_covered_edges(cover)]: the edges with an endpoint in [cover]. *)
Definition count_covered_edges (G : Graph) (cover : gset V) : Z :=
  Z.of_nat (length (filter (λ edge, edge.1 ∈ cover ∨ edge.2 ∈ cover)
                           (elements (edge_set G)))).

End Store.

Arguments store V {_ _}.
Arguments Graph V : clear implicits.

(** What one pass through a loop body asks of the loop. *)
Inductive flow := Next | Break.

(** ** The improved variant *)

Module Improved.
Section Run.
Context `{Countable V}.
Variable G : Graph V.
Variable np_exp : float → float.
Variables (Max_Node : Z) (initial_temp cooling_rate : float).
Variables (max_iteration early_stop : Z).

(** The local variables of [improved_simulated_annealing_VertexCover]. *)
Record state := State {
  mem : store V;
  current_solution : loc;
  best_solution : loc;
  best_covered : Z;
  current_temp : float;
  no_improvement_iterations : Z;
  gen : rng
}.

Definition current (st : state) : gset V := deref (mem st) (current_solution st).
Definition best (st : state) : gset V := deref (mem st) (best_solution st).

(** Lines 47-57: the initial sample, its copy, its score. *)
Definition init (g0 : rng) : result state :=
  '(smp, g1) ← sample g0 (nodes G) Max_Node;
  let '(cur, m1) := set_of_list empty_store smp in
  let '(bst, m2) := set_copy m1 cur in
  Ok {| mem := m2; current_solution := cur; best_solution := bst;
        best_covered := count_covered_edges G (deref m2 bst);
        current_temp := initial_temp;
        no_improvement_iterations := 0;
        gen := g1 |}.

(** Line 66: the nodes outside the current solution, in node order. *)
Definition node_in_candidates (st : state) : list V :=
  filter (λ node, node ∉ current st) (nodes G).

(** Lines 65-71: the move. [None] is the [continue] of line 71. *)
Definition propose (st : state) : result (option (V * V) * rng) :=
  '(node_out, g1) ← choice (gen st) (list_of_set (mem st) (current_solution st));
  match node_in_candidates st with
  | [] => Ok (None, g1)
  | c :: cs => Ok (Some (node_out, max_by (degree G) c cs), g1)
  end.

(** Lines 83-85: [current_temp > 0 and (d > 0 or random.random() <
    np.exp(d / current_temp))], evaluated left to right. *)
Definition accept (d : Z) (temp : float) (g : rng) : bool * rng :=
  if PrimFloat.ltb 0 temp then
    if decide (0 < d) then (true, g)
    else
      let '(u, g') := random g in
      (PrimFloat.ltb u (np_exp (PrimFloat.div (float_of_Z d) temp)), g')
  else (false, g).

(** Line 95: [current_temp *= cooling_rate * (1 - i / max_iteration)]. *)
Definition cool (i : Z) (temp : float) : float :=
  PrimFloat.mul temp
    (PrimFloat.mul cooling_rate
       (PrimFloat.sub (float_of_Z 1) (int_truediv i max_iteration))).

(** Lines 86-95: what an iteration that made a move leaves behind. *)
Definition update (i : Z) (st : state) (m : store V) (new_solution : loc)
  (new_covered : Z) (accepted : bool) (g : rng) : state :=
  if accepted then
    if decide (best_covered st < new_covered) then
      {| mem := m; current_solution := new_solution;
         best_solution := new_solution; best_covered := new_covered;
         current_temp := cool i (current_temp st);
         no_improvement_iterations := 0; gen := g |}
    else
      {| mem := m; current_solution := new_solution;
         best_solution := best_solution st; best_covered := best_covered st;
         current_temp := cool i (current_temp st);
         no_improvement_iterations := no_improvement_iterations st + 1;
         gen := g |}
  else
    {| mem := m; current_solution := current_solution st;
       best_solution := best_solution st; best_covered := best_covered st;
       current_temp := cool i (current_temp st);
       no_improvement_iterations := no_improvement_iterations st;
       gen := g |}.

(** The state after a [continue]: only the generator has moved. *)
Definition skip (st : state) (g : rng) : state :=
  {| mem := mem st; current_solution := current_solution st;
     best_solution := best_solution st; best_covered := best_covered st;
     current_temp := current_temp st;
     no_improvement_iterations := no_improvement_iterations st;
     gen := g |}.

(** Lines 60-95: the body of the [for] loop at index [i]. *)
Definition body (i : Z) (st : state) : result (flow * state) :=
  if decide (early_stop ≤ no_improvement_iterations st) then Ok (Break, st)
  else
    '(move, g1) ← propose st;
    match move with
    | None => Ok (Next, skip st g1)
    | Some (node_out, node_in) =>
        let '(new_solution, m1) := set_copy (mem st) (current_solution st) in
        m2 ← set_remove m1 new_solution node_out;
        let m3 := set_add m2 new_solution node_in in
        let new_covered := count_covered_edges G (deref m3 new_solution) in
        let new_best_difference := new_covered - best_covered st in
        let '(accepted, g2) := accept new_best_difference (current_temp st) g1 in
        Ok (Next, update i st m3 new_solution new_covered accepted g2)
    end.

(** [for i in range(max_iteration)], [n] indices left, the next one [i]. *)
Fixpoint loop (n : nat) (i : Z) (st : state) : result state :=
  match n with
  | O => Ok st
  | S n' =>
      '(f, st') ← body i st;
      match f with
      | Break => Ok st'
      | Next => loop n' (i + 1) st'
      end
  end.

(** The state after the first [k] passes of the loop. *)
Definition after (k : nat) (g0 : rng) : result state :=
  st0 ← init g0; loop k 0 st0.

Definition improved_simulated_annealing_VertexCover (g0 : rng)
  : result (list V * Z) :=
  st ← after (Z.to_nat max_iteration) g0;
  Ok (list_of_set (mem st) (best_solution st), best_covered st).

(** *** The loop body as a relation

    The candidate of lines 74-76 as a set, and the three ways through the
    body: the [break] of line 62, the [continue] of line 71, and a pass that
    builds a candidate and decides on it. *)

Definition candidate (st : state) (node_out node_in : V) : gset V :=
  {[node_in]} ∪ (current st ∖ {[node_out]}).

Inductive pass (i : Z) (st : state) : flow → state → Prop :=
| pass_break :
    early_stop ≤ no_improvement_iterations st →
    pass i st Break st
| pass_skip g1 :
    no_improvement_iterations st < early_stop →
    propose st = Ok (None, g1) →
    pass i st Next (skip st g1)
| pass_move node_out node_in g1 m3 :
    no_improvement_iterations st < early_stop →
    propose st = Ok (Some (node_out, node_in), g1) →
    next m3 = S (next (mem st)) →
    deref m3 (next (mem st)) = candidate st node_out node_in →
    (∀ l, l ≠ next (mem st) → deref m3 l = deref (mem st) l) →
    let new_covered := count_covered_edges G (candidate st node_out node_in) in
    let decision :=
      accept (new_covered - best_covered st) (current_temp st) g1 in
    pass i st Next
      (update i st m3 (next (mem st)) new_covered decision.1 decision.2).

(** *** Invariants of the loop

    [linked]: both references are bound and [best_covered] is the score of
    the object [best_solution] refers to. [sized k]: both sets have [k]
    members. *)

Definition linked (st : state) : Prop :=
  (current_solution st < next (mem st))%nat
  ∧ (best_solution st < next (mem st))%nat
  ∧ best_covered st = count_covered_edges G (best st).

Definition sized (k : nat) (st : state) : Prop :=
  size (current st) = k ∧ size (best st) = k.

Definition linked_sized (k : nat) (st : state) : Prop := linked st ∧ sized k st.

(** [within_nodes]: both sets hold nodes of the graph. [ranked c0]: the
    current solution scores no more than [best_covered], [best_covered] is
    at least [c0], and the stagnation counter lies between [0] and
    [early_stop]. *)

Definition within_nodes (st : state) : Prop :=
  (∀ v, v ∈ current st → v ∈ nodes G) ∧ (∀ v, v ∈ best st → v ∈ nodes G).

Definition ranked (c0 : Z) (st : state) : Prop :=
  count_covered_edges G (current st) ≤ best_covered st
  ∧ c0 ≤ best_covered st
  ∧ 0 ≤ no_improvement_iterations st ≤ Z.max 0 early_stop.

Definition steady (c0 : Z) (st : state) : Prop :=
  linked st ∧ within_nodes st ∧ ranked c0 st.

(** *** The cooling schedule

    Line 95 reads no part of the state but the temperature and the index:
    [schedule i] is the temperature before pass [i] of a run that has
    reached line 95 in every pass so far. [frozen_from z] tests, walking
    the schedule once, that this temperature is not positive at any index
    from [z] up to [max_iteration]. *)

Fixpoint schedule (i : nat) : float :=
  match i with
  | O => initial_temp
  | S j => cool (Z.of_nat j) (schedule j)
  end.

Fixpoint frozen_scan (n i : nat) (temp : float) (z : nat) : bool :=
  match n with
  | O => true
  | S n' =>
      (if (z <=? i)%nat then negb (PrimFloat.ltb 0 temp) else true)
      && frozen_scan n' (S i) (cool (Z.of_nat i) temp) z
  end.

Definition frozen_from (z : nat) : bool :=
  frozen_scan (Z.to_nat max_iteration) 0 initial_temp z.

(** [on_schedule i]: before pass [i] the temperature is the scheduled one,
    unless the run has no candidate left or has used up its early-stop
    budget. *)
Definition on_schedule (i : nat) (st : state) : Prop :=
  linked st
  ∧ (current_temp st = schedule i
     ∨ node_in_candidates st = []
     ∨ early_stop ≤ no_improvement_iterations st).

(** Two states with the same solutions, score and stagnation counter. *)
Definition same_search (st st' : state) : Prop :=
  current st' = current st
  ∧ best st' = best st
  ∧ best_covered st' = best_covered st
  ∧ no_improvement_iterations st' = no_improvement_iterations st.

End Run.
Arguments state V {_ _}.
End Improved.

(** ** The baseline variant

    [simulated_annealing_VertexCover], the same in both files that define
    it: a uniform choice of the node that enters, no guard on the
    temperature, no early stop, geometric cooling. *)

Module Baseline.
Section Run.
Context `{Countable V}.
Variable G : Graph V.
Variable np_exp : float → float.
Variables (Max_Node : Z) (initial_temp cooling_rate : float).
Variable max_iteration : Z.

Record state := State {
  mem : store V;
  current_solution : loc;
  best_solution : loc;
  best_covered : Z;
  current_temp : float;
  gen : rng
}.

Definition current (st : state) : gset V := deref (mem st) (current_solution st).
Definition best (st : state) : gset V := deref (mem st) (best_solution st).

Definition init (g0 : rng) : result state :=
  '(smp, g1) ← sample g0 (nodes G) Max_Node;
  let '(cur, m1) := set_of_list empty_store smp in
  let '(bst, m2) := set_copy m1 cur in
  Ok {| mem := m2; current_solution := cur; best_solution := bst;
        best_covered := count_covered_edges G (deref m2 bst);
        current_temp := initial_temp;
        gen := g1 |}.

(** The two [random.choice] calls that open the loop body. *)
Definition propose (st : state) : result (V * V * rng) :=
  '(node_out, g1) ← choice (gen st) (list_of_set (mem st) (current_solution st));
  '(node_in, g2) ← choice g1 (filter (λ node, node ∉ current st) (nodes G));
  Ok (node_out, node_in, g2).

(** [d > 0 or random.random() < np.exp(d / current_temp)]: the division
    raises on a zero temperature. *)
Definition accept (d : Z) (temp : float) (g : rng) : result (bool * rng) :=
  if decide (0 < d) then Ok (true, g)
  else
    let '(u, g') := random g in
    if PrimFloat.eqb temp 0 then Raise ZeroDivisionError
    else Ok (PrimFloat.ltb u (np_exp (PrimFloat.div (float_of_Z d) temp)), g').

(** [current_temp *= cooling_rate] *)
Definition cool (temp : float) : float := PrimFloat.mul temp cooling_rate.

Definition update (st : state) (m : store V) (new_solution : loc)
  (new_covered : Z) (accepted : bool) (g : rng) : state :=
  if accepted then
    if decide (best_covered st < new_covered) then
      {| mem := m; current_solution := new_solution;
         best_solution := new_solution; best_covered := new_covered;
         current_temp := cool (current_temp st); gen := g |}
    else
      {| mem := m; current_solution := new_solution;
         best_solution := best_solution st; best_covered := best_covered st;
         current_temp := cool (current_temp st); gen := g |}
  else
    {| mem := m; current_solution := current_solution st;
       best_solution := best_solution st; best_covered := best_covered st;
       current_temp := cool (current_temp st); gen := g |}.

Definition body (st : state) : result state :=
  '(node_out, node_in, g1) ← propose st;
  let '(new_solution, m1) := set_copy (mem st) (current_solution st) in
  m2 ← set_remove m1 new_solution node_out;
  let m3 := set_add m2 new_solution node_in in
  let new_covered := count_covered_edges G (deref m3 new_solution) in
  let new_best_difference := new_covered - best_covered st in
  '(accepted, g2) ← accept new_best_difference (current_temp st) g1;
  Ok (update st m3 new_solution new_covered accepted g2).

Fixpoint loop (n : nat) (st : state) : result state :=
  match n with
  | O => Ok st
  | S n' => st' ← body st; loop n' st'
  end.

Definition simulated_annealing_VertexCover (g0 : rng) : result (list V * Z) :=
  st0 ← init g0;
  st ← loop (Z.to_nat max_iteration) st0;
  Ok (list_of_set (mem st) (best_solution st), best_covered st).

(** The candidate, as a set. *)
Definition candidate (st : state) (node_out node_in : V) : gset V :=
  {[node_in]} ∪ (current st ∖ {[node_out]}).

(** The state after the first [k] passes of the loop. *)
Definition after (k : nat) (g0 : rng) : result state :=
  st0 ← init g0; loop k st0.

(** *** Invariants of the loop

    [steady k c0]: both references are bound, [best_covered] is the score of
    the object [best_solution] refers to, both sets have [k] members, all
    of them nodes of the graph, the current solution scores no more than
    [best_covered], and [best_covered] is at least [c0]. *)

Definition steady (k : nat) (c0 : Z) (st : state) : Prop :=
  ((current_solution st < next (mem st))%nat
   ∧ (best_solution st < next (mem st))%nat
   ∧ best_covered st = count_covered_edges G (best st))
  ∧ (size (current st) = k ∧ size (best st) = k)
  ∧ ((∀ v, v ∈ current st → v ∈ nodes G) ∧ (∀ v, v ∈ best st → v ∈ nodes G))
  ∧ (count_covered_edges G (current st) ≤ best_covered st
     ∧ c0 ≤ best_covered st).

(** *** The cooling schedule

    Every pass that returns cools once: [schedule i] is the temperature
    before pass [i]. [never_zero] tests, walking the schedule once, that it
    is not zero at any index below [max_iteration]. *)

Fixpoint schedule (i : nat) : float :=
  match i with
  | O => initial_temp
  | S j => cool (schedule j)
  end.

Fixpoint never_zero_scan (n : nat) (temp : float) : bool :=
  match n with
  | O => true
  | S n' => negb (PrimFloat.eqb temp 0) && never_zero_scan n' (cool temp)
  end.

Definition never_zero : bool :=
  never_zero_scan (Z.to_nat max_iteration) initial_temp.

End Run.
Arguments state V {_ _}.
End Baseline.

(** ** The experiment driver

    [run_algorithm], the same in the three files but for the search it
    calls. [nx.read_gexf] is a parameter, [None] where it raises;
    [time.time()] reads a clock; the generator of the [random] module is
    shared by the searches of one batch. The searches run with the default
    parameters of their definitions. *)

Module Driver.
Section Run.
Context `{Countable V}.
Variable read_gexf : string → option (Graph V).
Variable np_exp : float → float.

Inductive error :=
| LoadError (path : string)
| SearchError (e : exn).

Inductive outcome (A : Type) :=
| Done (a : A)
| Failed (err : error).
Arguments Done {A} a.
Arguments Failed {A} err.

Record world := World { random_state : rng; clock : nat → float; ticks : nat }.

(** [time.time()] *)
Definition time (w : world) : float * world :=
  (clock w (ticks w),
   {| random_state := random_state w; clock := clock w; ticks := S (ticks w) |}).

Definition with_random (w : world) (g : rng) : world :=
  {| random_state := g; clock := clock w; ticks := ticks w |}.

(** One value of the [results] dictionary. *)
Record entry := Entry {
  covered_edges : Z;
  runtime : float;
  vertex_cover : list V
}.

(** The default cooling rates, [0.9] and [0.95], as binary64 values. *)
Definition improved_cooling_rate : float := 0x1.ccccccccccccdp-1%float.
Definition baseline_cooling_rate : float := 0x1.e666666666666p-1%float.

(** [improved_simulated_annealing_VertexCover(graph, Max_Node)], with the
    generator it leaves behind. *)
Definition improved_search (graph : Graph V) (Max_Node : Z) (g : rng)
  : result (list V * Z * rng) :=
  st ← Improved.after graph np_exp Max_Node 1500%float improved_cooling_rate
         1500 150 (Z.to_nat 1500) g;
  Ok (list_of_set (Improved.mem st) (Improved.best_solution st),
      Improved.best_covered st, Improved.gen st).

(** [simulated_annealing_VertexCover(graph, Max_Node)], likewise. *)
Definition baseline_search (graph : Graph V) (Max_Node : Z) (g : rng)
  : result (list V * Z * rng) :=
  st ← Baseline.after graph np_exp Max_Node 1500%float baseline_cooling_rate
         (Z.to_nat 1500) g;
  Ok (list_of_set (Baseline.mem st) (Baseline.best_solution st),
      Baseline.best_covered st, Baseline.gen st).

Section Batch.
Variable search : Graph V → Z → rng → result (list V * Z * rng).
Variable Max_Node_values : gmap string Z.

(** The body of the loop over [graph_files.items()]. The graph is read
    first; the search runs when [Max_Node_values.get(name, None)] is
    truthy, that is present and not [0]. *)
Definition visit (results : gmap string entry) (w : world)
  (name path : string) : outcome (gmap string entry * world) :=
  match read_gexf path with
  | None => Failed (LoadError path)
  | Some graph =>
      match Max_Node_values !! name with
      | None => Done (results, w)
      | Some Max_Node =>
          if decide (Max_Node = 0) then Done (results, w)
          else
            let '(start_time, w1) := time w in
            match search graph Max_Node (random_state w1) with
            | Raise e => Failed (SearchError e)
            | Ok (cover, covered, g') =>
                let '(end_time, w2) := time (with_random w1 g') in
                Done (<[name := {| covered_edges := covered;
                                   runtime := PrimFloat.sub end_time start_time;
                                   vertex_cover := cover |}]> results, w2)
            end
      end
  end.

Fixpoint visit_all (items : list (string * string))
  (results : gmap string entry) (w : world)
  : outcome (gmap string entry * world) :=
  match items with
  | [] => Done (results, w)
  | (name, path) :: rest =>
      match visit results w name path with
      | Done (results', w') => visit_all rest results' w'
      | Failed err => Failed err
      end
  end.

(** [searched items name path graph k]: the item [(name, path)] loads
    [graph] and asks for a search with [Max_Node = k]. *)
Definition searched (items : list (string * string))
  (name path : string) (graph : Graph V) (k : Z) : Prop :=
  (name, path) ∈ items ∧ read_gexf path = Some graph
  ∧ Max_Node_values !! name = Some k ∧ k ≠ 0.

(** [run_algorithm(graph_files, Max_Node_values)]; [graph_files] by its
    items, in insertion order. *)
Definition run_algorithm (graph_files : list (string * string)) (w : world)
  : outcome (gmap string entry * world) :=
  visit_all graph_files ∅ w.

End Batch.

Definition improved_run_algorithm := run_algorithm improved_search.
Definition baseline_run_algorithm := run_algorithm baseline_search.

End Run.
Arguments Done {A} a.
Arguments Failed {A} err.
Arguments entry V : clear implicits.
End Driver.

(** ** Sample inputs *)

Module Samples.

(** A tape whose every integer draw is [r] and every uniform draw is [u]. *)
Definition tape (r : nat) (u : float) : rng :=
  {| raw := λ _, r; unif := λ _, u; pos := O |}.

(** An exponential stand-in for the runs below: [1] at and above [0], [0]
    below. It is read only through the comparison with a uniform draw. *)
Definition step_exp (x : float) : float :=
  if PrimFloat.ltb x 0 then 0%float else 1%float.

(** One edge between nodes 2 and 3; node 1 is isolated. *)
Definition path3 : Graph nat :=
  {| nodes := [1; 2; 3]%nat; edges := [(2, 3)%nat];
     degree := λ n, match n with 2%nat | 3%nat => 1%nat | _ => 0%nat end |}.

(** The cycle on four nodes. *)
Definition cycle4 : Graph nat :=
  {| nodes := [1; 2; 3; 4]%nat;
     edges := [(1, 2); (2, 3); (3, 4); (4, 1)]%nat;
     degree := λ _, 2%nat |}.

(** A single node, no edge. *)
Definition single : Graph nat :=
  {| nodes := [1]%nat; edges := []; degree := λ _, 0%nat |}.

(** Three stars: node 1 with leaves 4 and 5, node 3 with leaf 6, and the
    isolated node 2. *)
Definition stars : Graph nat :=
  {| nodes := [1; 2; 3; 4; 5; 6]%nat;
     edges := [(1, 4); (1, 5); (3, 6)]%nat;
     degree := λ n, match n with
                    | 1%nat => 2%nat
                    | 2%nat => 0%nat
                    | _ => 1%nat
                    end |}.

(** A tape for [stars]: the first two integer draws are 0, the draws at
    positions 2 to [turn - 1] are 1, the later ones 0; every uniform draw is
    [1 - 2^-14]. *)
Definition turning_tape (turn : nat) : rng :=
  {| raw := λ p, if (p <? 2)%nat then 0%nat
                 else if (p <? turn)%nat then 1%nat else 0%nat;
     unif := λ _, 0.99993896484375%float;
     pos := O |}.

(** The cooling rate [0.9], as the binary64 value Python reads it. *)
Definition rate : float := 0x1.ccccccccccccdp-1%float.

(** The state of the improved variant before the first pass, for a given
    initial sample. *)
Definition improved_from (G : Graph nat) (smp : list nat) (temp : float)
  (g : rng) : Improved.state nat :=
  let '(cur, m1) := set_of_list empty_store smp in
  let '(bst, m2) := set_copy m1 cur in
  {| Improved.mem := m2; Improved.current_solution := cur;
     Improved.best_solution := bst;
     Improved.best_covered := count_covered_edges G (deref m2 bst);
     Improved.current_temp := temp;
     Improved.no_improvement_iterations := 0;
     Improved.gen := g |}.

(** [path3] with the isolated node as the cover, at temperature 1500 and at
    temperature 0. *)
Definition warm : Improved.state nat :=
  improved_from path3 [1%nat] 1500%float (advance (tape 0 0.5%float)).
Definition cold : Improved.state nat :=
  improved_from path3 [1%nat] 0%float (advance (tape 0 0.5%float)).

(** The baseline on [path3] at temperature 0, before its first pass, with
    node 1 and with node 2 as the cover. *)
Definition baseline_from (G : Graph nat) (smp : list nat) (temp : float)
  (g : rng) : Baseline.state nat :=
  let '(cur, m1) := set_of_list empty_store smp in
  let '(bst, m2) := set_copy m1 cur in
  {| Baseline.mem := m2; Baseline.current_solution := cur;
     Baseline.best_solution := bst;
     Baseline.best_covered := count_covered_edges G (deref m2 bst);
     Baseline.current_temp := temp;
     Baseline.gen := g |}.

Definition cold_baseline_1 : Baseline.state nat :=
  baseline_from path3 [1%nat] 0%float (advance (tape 0 0.5%float)).
Definition cold_baseline_2 : Baseline.state nat :=
  baseline_from path3 [2%nat] 0%float (advance (tape 1 0.5%float)).

(** A loader that knows two files, and a batch over them. *)
Definition loader (path : string) : option (Graph nat) :=
  if String.eqb path "ring.gexf" then Some cycle4
  else if String.eqb path "path.gexf" then Some path3
  else None.

Definition batch : list (string * string) :=
  [("ring", "ring.gexf"); ("path", "path.gexf")].

Definition start_of_day : Driver.world :=
  {| Driver.random_state := tape 0 0.5%float;
     Driver.clock := λ _, 0%float;
     Driver.ticks := O |}.

(** [single] with its node as the cover: no node is left to put in. *)
Definition full : Improved.state nat :=
  improved_from single [1%nat] 1500%float (advance (tape 0 0.5%float)).

End Samples.

(** * Properties *)

(** ** The error monad *)

Lemma bind_Ok {A B} (f : A → result B) (r : result A) (b : B) :
  r ≫= f = Ok b → ∃ a, r = Ok a ∧ f a = Ok b.
Proof. destruct r as [a|e]; simpl; [eauto | discriminate]. Qed.

(** ** The random module *)

Lemma choice_nil {A} (g : rng) : choice g (@nil A) = Raise IndexError.
Proof. reflexivity. Qed.

Lemma choice_cons {A} (g : rng) (seq : list A) :
  seq ≠ [] →
  ∃ x, choice g seq = Ok (x, advance g)
       ∧ seq !! (raw g (pos g) mod length seq)%nat = Some x.
Proof.
  intros Hne. unfold choice, randbelow.
  assert (Hlt : (raw g (pos g) mod length seq < length seq)%nat).
  { apply Nat.mod_upper_bound. destruct seq; [done | simpl; lia]. }
  apply lookup_lt_is_Some in Hlt as [x Hx]. exists x. by rewrite Hx.
Qed.

Lemma choice_Ok {A} (g g' : rng) (seq : list A) (x : A) :
  choice g seq = Ok (x, g') →
  g' = advance g ∧ seq !! (raw g (pos g) mod length seq)%nat = Some x.
Proof.
  unfold choice, randbelow.
  destruct (seq !! _) as [y|] eqn:Hy; [|discriminate].
  by intros [= -> <-].
Qed.

Lemma sample_pool_length {A} (k : nat) : ∀ (g : rng) (pool : list A),
  (k ≤ length pool)%nat → length (sample_pool g pool k).1 = k.
Proof.
  induction k as [|k IH]; intros g pool Hk; [done|].
  simpl. unfold randbelow.
  assert (Hlt : (raw g (pos g) mod length pool < length pool)%nat)
    by (apply Nat.mod_upper_bound; lia).
  destruct (lookup_lt_is_Some_2 _ _ Hlt) as [x Hx]. rewrite Hx.
  specialize (IH (advance g) (delete (raw g (pos g) mod length pool)%nat pool)).
  destruct (sample_pool _ _ k) as [r g2]. simpl in *. f_equal. apply IH.
  rewrite length_delete; [lia | eauto].
Qed.

Lemma sample_pool_sublist {A} (k : nat) : ∀ (g : rng) (pool : list A),
  (sample_pool g pool k).1 ⊆+ pool.
Proof.
  induction k as [|k IH]; intros g pool; simpl.
  - apply submseteq_nil_l.
  - unfold randbelow. destruct (pool !! _) as [x|] eqn:Hx; simpl.
    + specialize (IH (advance g) (delete (raw g (pos g) mod length pool)%nat pool)).
      destruct (sample_pool _ _ k) as [r g2]. simpl in *.
      rewrite (delete_Permutation pool _ x Hx). by apply submseteq_skip.
    + apply submseteq_nil_l.
Qed.

Lemma sample_pool_NoDup {A} (k : nat) (g : rng) (pool : list A) :
  NoDup pool → NoDup (sample_pool g pool k).1.
Proof.
  intros Hnd.
  destruct (submseteq_Permutation _ _ (sample_pool_sublist k g pool)) as [rest Hp].
  rewrite Hp in Hnd. by apply NoDup_app in Hnd as [? _].
Qed.

(** ** The builtin [max] *)

Lemma max_by_elem {A} (key : A → nat) (l : list A) : ∀ b,
  max_by key b l ∈ b :: l.
Proof.
  induction l as [|x l IHl]; intros b; simpl; [set_solver|].
  specialize (IHl (if (key b <? key x)%nat then x else b)).
  destruct (key b <? key x)%nat.
  - rewrite elem_of_cons. by right.
  - apply elem_of_cons in IHl as [->|Hm]; rewrite !elem_of_cons; auto.
Qed.

Lemma max_by_ge {A} (key : A → nat) (l : list A) : ∀ b y,
  y ∈ b :: l → (key y ≤ key (max_by key b l))%nat.
Proof.
  induction l as [|x l IHl]; intros b y Hy; simpl.
  - apply list_elem_of_singleton in Hy as ->. lia.
  - destruct (Nat.ltb_spec (key b) (key x)) as [Hlt|Hge].
    + apply elem_of_cons in Hy as [->|Hy].
      * etrans; [|apply (IHl x x); set_solver]. lia.
      * apply IHl. set_solver.
    + apply elem_of_cons in Hy as [->|Hy].
      * apply (IHl b b). set_solver.
      * apply elem_of_cons in Hy as [->|Hy].
        -- etrans; [exact Hge|]. apply (IHl b b). set_solver.
        -- apply IHl. set_solver.
Qed.

(** The maximum is the first of its degree: whatever stands before it in the
    list has a strictly smaller key. *)
Lemma max_by_first {A} (key : A → nat) (l : list A) : ∀ b,
  ∃ l1 l2, b :: l = l1 ++ max_by key b l :: l2
           ∧ ∀ y, y ∈ l1 → (key y < key (max_by key b l))%nat.
Proof.
  induction l as [|x l IHl]; intros b; simpl.
  - exists [], []. split; [done | set_solver].
  - destruct (Nat.ltb_spec (key b) (key x)) as [Hlt|Hge].
    + destruct (IHl x) as (l1 & l2 & Heq & Hl1).
      exists (b :: l1), l2. split; [by rewrite Heq|].
      intros y [->|Hy]%elem_of_cons; [|by apply Hl1].
      eapply Nat.lt_le_trans; [exact Hlt|]. apply max_by_ge. set_solver.
    + destruct (IHl b) as (l1 & l2 & Heq & Hl1).
      destruct l1 as [|b' l1]; simpl in Heq.
      * exists [], (x :: l2). split; [|set_solver].
        simpl. injection Heq as Hb Hl. rewrite <- Hb at 1. by rewrite Hl.
      * injection Heq as Hb Hl. subst b'.
        exists (b :: x :: l1), l2. split; [simpl; do 2 f_equal; exact Hl|].
        intros y [->|[->|Hy]%elem_of_cons]%elem_of_cons.
        -- apply Hl1. set_solver.
        -- eapply Nat.le_lt_trans; [exact Hge|]. apply Hl1. set_solver.
        -- apply Hl1. set_solver.
Qed.

(** ** Set objects *)

Section StoreFacts.
Context `{Countable V}.
Implicit Types (m : store V) (s : gset V) (l : loc) (x : V).

Lemma deref_alloc_new m s : deref (alloc m s).2 (next m) = s.
Proof. unfold deref, alloc; simpl. apply lookup_total_insert_eq. Qed.

Lemma deref_alloc_old m s l : l ≠ next m → deref (alloc m s).2 l = deref m l.
Proof. intros Hl. unfold deref, alloc; simpl. by apply lookup_total_insert_ne. Qed.

Lemma deref_assign_eq m l s : deref (assign m l s) l = s.
Proof. unfold deref, assign; simpl. apply lookup_total_insert_eq. Qed.

Lemma deref_assign_ne m l l' s : l ≠ l' → deref (assign m l s) l' = deref m l'.
Proof. intros Hl. unfold deref, assign; simpl. by apply lookup_total_insert_ne. Qed.

(** The three statements that build the candidate, [copy], [remove], [add],
    write one new object and leave every other object of the store alone. *)
Lemma swap_store m l node_out node_in :
  node_out ∈ deref m l →
  ∃ m2, set_remove (set_copy m l).2 (next m) node_out = Ok m2
        ∧ next (set_add m2 (next m) node_in) = S (next m)
        ∧ deref (set_add m2 (next m) node_in) (next m)
          = {[node_in]} ∪ (deref m l ∖ {[node_out]})
        ∧ ∀ l', l' ≠ next m →
            deref (set_add m2 (next m) node_in) l' = deref m l'.
Proof.
  intros Hout. unfold set_copy, set_remove.
  rewrite deref_alloc_new. rewrite decide_True by done.
  eexists; split; [done|]. unfold set_add.
  rewrite !deref_assign_eq. split; [done|]. split; [done|].
  intros l' Hl'. rewrite !deref_assign_ne by done. by apply deref_alloc_old.
Qed.

Lemma swap_store_missing m l node_out :
  node_out ∉ deref m l →
  set_remove (set_copy m l).2 (next m) node_out = Raise KeyError.
Proof.
  intros Hout. unfold set_copy, set_remove.
  rewrite deref_alloc_new. by rewrite decide_False.
Qed.

(** One member out, one non-member in: the size stays. *)
Lemma size_swap s node_out node_in :
  node_out ∈ s → node_in ∉ s →
  size ({[node_in]} ∪ (s ∖ {[node_out]})) = size s.
Proof.
  intros Hout Hin.
  rewrite size_union.
  2: { apply disjoint_singleton_l. rewrite elem_of_difference. tauto. }
  rewrite size_singleton, size_difference.
  2: { by apply singleton_subseteq_l. }
  rewrite size_singleton.
  assert (size s ≠ 0)%nat.
  { apply size_non_empty_iff. intros He. rewrite He in Hout.
    by apply not_elem_of_empty in Hout. }
  lia.
Qed.

End StoreFacts.

(** ** The improved variant: the loop body *)

Section ImprovedFacts.
Context `{Countable V}.
Variable G : Graph V.
Variable np_exp : float → float.
Variables (Max_Node : Z) (initial_temp cooling_rate : float).
Variables (max_iteration early_stop : Z).

Import Improved.

Local Abbreviation init := (init G Max_Node initial_temp).
Local Abbreviation propose := (propose G).
Local Abbreviation accept := (accept np_exp).
Local Abbreviation update := (update cooling_rate max_iteration).
Local Abbreviation body := (body G np_exp cooling_rate max_iteration early_stop).
Local Abbreviation pass := (pass G np_exp cooling_rate max_iteration early_stop).
Local Abbreviation loop := (loop G np_exp cooling_rate max_iteration early_stop).
Local Abbreviation after :=
  (after G np_exp Max_Node initial_temp cooling_rate max_iteration early_stop).
Local Abbreviation run :=
  (improved_simulated_annealing_VertexCover
     G np_exp Max_Node initial_temp cooling_rate max_iteration early_stop).
Local Abbreviation count := (count_covered_edges G).
Local Abbreviation linked := (linked G).
Local Abbreviation linked_sized := (linked_sized G).

Implicit Types (st : state V) (g : rng) (i : Z).

Lemma propose_Ok st move g1 :
  propose st = Ok (move, g1) →
  g1 = advance (gen st)
  ∧ ∃ node_out,
      list_of_set (mem st) (current_solution st)
        !! (raw (gen st) (pos (gen st)) mod size (current st))%nat
      = Some node_out
      ∧ match move with
        | None => node_in_candidates G st = []
        | Some (o, n) =>
            o = node_out
            ∧ ∃ c cs, node_in_candidates G st = c :: cs
                      ∧ n = max_by (degree G) c cs
        end.
Proof.
  unfold Improved.propose. intros Hp.
  apply bind_Ok in Hp as ([node_out g] & Hc & Hp).
  apply choice_Ok in Hc as [-> Hc].
  destruct (node_in_candidates G st) as [|c cs] eqn:Hcs;
    injection Hp as <- <-; (split; [done|]); exists node_out;
    (split; [exact Hc|]); eauto.
Qed.

Lemma propose_members st node_out node_in g1 :
  propose st = Ok (Some (node_out, node_in), g1) →
  node_out ∈ current st ∧ node_in ∈ nodes G ∧ node_in ∉ current st.
Proof.
  intros (_ & o & Ho & -> & c & cs & Hcs & ->)%propose_Ok.
  split.
  - apply list_elem_of_lookup_2 in Ho. unfold list_of_set in Ho.
    by apply elem_of_elements in Ho.
  - pose proof (max_by_elem (degree G) cs c) as Hm. rewrite <- Hcs in Hm.
    apply list_elem_of_filter in Hm as [? ?]. done.
Qed.

Lemma propose_total st :
  current st ≠ ∅ → ∃ move, propose st = Ok (move, advance (gen st)).
Proof.
  intros Hne. unfold Improved.propose.
  destruct (choice_cons (gen st) (list_of_set (mem st) (current_solution st)))
    as (x & -> & _).
  { unfold list_of_set. intros He%elements_empty_inv. apply Hne.
    by apply leibniz_equiv. }
  simpl. destruct (node_in_candidates G st); eauto.
Qed.

Lemma propose_empty st :
  current st = ∅ → propose st = Raise IndexError.
Proof.
  intros He. unfold Improved.propose, list_of_set.
  fold (current st). by rewrite He, elements_empty.
Qed.

(** The body takes one of the three ways of [pass]. *)
Lemma body_pass i st f st' : body i st = Ok (f, st') → pass i st f st'.
Proof.
  unfold Improved.body. case_decide as Hstop.
  { intros [= <- <-]. by constructor. }
  intros ([move g1] & Hp & Hb)%bind_Ok.
  destruct move as [[node_out node_in]|].
  - destruct (propose_members _ _ _ _ Hp) as (Hout & _ & _).
    destruct (swap_store (mem st) (current_solution st) node_out node_in Hout)
      as (m2 & Hrm & Hnext & Hnew & Hold).
    unfold set_copy in Hb. simpl in Hb. unfold set_copy in Hrm. simpl in Hrm.
    rewrite Hrm in Hb. simpl in Hb. rewrite Hnew in Hb.
    destruct (accept _ _ _) as [accepted g2] eqn:Hacc.
    injection Hb as <- <-.
    pose proof (pass_move G np_exp cooling_rate max_iteration early_stop
                  i st node_out node_in g1 _ ltac:(lia) Hp Hnext Hnew Hold) as P.
    simpl in P. fold (current st) in Hacc. unfold candidate in P.
    by rewrite Hacc in P.
  - injection Hb as <- <-. constructor; [lia | done].
Qed.

(** With a member to take out, the body does not raise. *)
Lemma body_total i st : current st ≠ ∅ → ∃ f st', body i st = Ok (f, st').
Proof.
  intros Hne. unfold Improved.body. case_decide; [eauto|].
  destruct (propose_total st Hne) as [move Hp]. rewrite Hp. simpl.
  destruct move as [[node_out node_in]|]; [|eauto].
  destruct (propose_members _ _ _ _ Hp) as (Hout & _ & _).
  destruct (swap_store (mem st) (current_solution st) node_out node_in Hout)
    as (m2 & Hrm & _).
  unfold set_copy in *. simpl in *. rewrite Hrm. simpl.
  destruct (accept _ _ _); eauto.
Qed.

(** *** What a pass preserves *)

Lemma update_fields i st m new_solution c accepted g :
  let st' := update i st m new_solution c accepted g in
  mem st' = m ∧ gen st' = g
  ∧ current_temp st' = cool cooling_rate max_iteration i (current_temp st)
  ∧ current_solution st'
    = (if accepted then new_solution else current_solution st)
  ∧ best_solution st'
    = (if accepted && bool_decide (best_covered st < c)
       then new_solution else best_solution st)
  ∧ best_covered st'
    = (if accepted && bool_decide (best_covered st < c)
       then c else best_covered st)
  ∧ no_improvement_iterations st'
    = (if accepted
       then if bool_decide (best_covered st < c) then 0
            else no_improvement_iterations st + 1
       else no_improvement_iterations st).
Proof.
  unfold Improved.update. destruct accepted; simpl; [|done].
  case_decide; [rewrite bool_decide_eq_true_2 by done
               |rewrite bool_decide_eq_false_2 by done]; done.
Qed.

Lemma pass_linked i st f st' : linked st → pass i st f st' → linked st'.
Proof.
  intros (Hcur & Hbest & Hcov) P. destruct P as [|g1 ? ?|o n g1 m3 ? Hp Hnext Hnew Hold]; [done|done|].
  destruct (update_fields i st m3 (next (mem st)) new_covered decision.1 decision.2)
    as (Hm & _ & _ & Hc & Hb & Hbc & _).
  unfold Improved.linked, best. rewrite Hm, Hc, Hb, Hbc, Hnext.
  split; [destruct decision.1; lia|].
  destruct (decision.1 && bool_decide (best_covered st < new_covered)).
  - split; [lia|]. by rewrite Hnew.
  - split; [lia|]. rewrite Hold by lia. exact Hcov.
Qed.

Lemma pass_sized k i st f st' :
  linked st → sized k st → pass i st f st' → sized k st'.
Proof.
  intros (Hcur & Hbest & _) [Hk Hkb] P.
  destruct P as [|g1 ? ?|o n g1 m3 ? Hp Hnext Hnew Hold]; [done|done|].
  destruct (propose_members _ _ _ _ Hp) as (Hout & _ & Hin).
  assert (Hcand : size (candidate st o n) = k)
    by (unfold candidate; by rewrite size_swap).
  destruct (update_fields i st m3 (next (mem st)) new_covered decision.1 decision.2)
    as (Hm & _ & _ & Hc & Hb & _).
  unfold sized, current, best. rewrite Hm, Hc, Hb. split.
  - destruct decision.1; [by rewrite Hnew|]. rewrite Hold by lia. exact Hk.
  - destruct (decision.1 && bool_decide (best_covered st < new_covered));
      [by rewrite Hnew|]. rewrite Hold by lia. exact Hkb.
Qed.

(** [best_covered] stays or grows, and when it grows it is the score of the
    candidate, which is now the current solution. *)
Lemma pass_best_covered i st f st' :
  pass i st f st' →
  best_covered st' = best_covered st
  ∨ (best_covered st < best_covered st'
     ∧ best_covered st' = count (current st')
     ∧ best_solution st' = current_solution st').
Proof.
  intros P. destruct P as [|g1 ? ?|o n g1 m3 ? Hp Hnext Hnew Hold]; [by left|by left|].
  destruct (update_fields i st m3 (next (mem st)) new_covered decision.1 decision.2)
    as (Hm & _ & _ & Hc & Hb & Hbc & _).
  unfold current. rewrite Hm, Hc, Hb, Hbc.
  destruct decision.1; simpl; [|by left].
  case_bool_decide; [right|by left]. by rewrite Hnew.
Qed.

(** *** The loop *)

Lemma loop_invariant (P : state V → Prop) :
  (∀ i st f st', P st → body i st = Ok (f, st') → P st') →
  ∀ n i st st', P st → loop n i st = Ok st' → P st'.
Proof.
  intros Hstep n. induction n as [|n IHn]; intros i st st' HP Hl; simpl in Hl.
  - by injection Hl as <-.
  - apply bind_Ok in Hl as ([f st1] & Hb & Hl).
    pose proof (Hstep _ _ _ _ HP Hb) as HP1.
    destruct f; [by eapply IHn | by injection Hl as <-].
Qed.

Lemma loop_total (P : state V → Prop) :
  (∀ i st f st', P st → body i st = Ok (f, st') → P st') →
  (∀ st, P st → current st ≠ ∅) →
  ∀ n i st, P st → ∃ st', loop n i st = Ok st'.
Proof.
  intros Hstep Hne n. induction n as [|n IHn]; intros i st HP; simpl; [eauto|].
  destruct (body_total i st (Hne _ HP)) as (f & st1 & Hb). rewrite Hb. simpl.
  destruct f; [|eauto]. apply IHn. by eapply Hstep.
Qed.

Lemma loop_linked n i st st' : linked st → loop n i st = Ok st' → linked st'.
Proof.
  apply (loop_invariant linked). intros ? ? ? ? L Hb.
  eapply pass_linked; [exact L | by apply body_pass].
Qed.

Lemma body_linked_sized k i st f st' :
  linked_sized k st → body i st = Ok (f, st') → linked_sized k st'.
Proof.
  intros [L S] P%body_pass. split; [by eapply pass_linked | by eapply pass_sized].
Qed.

Lemma sized_nonempty k st : (0 < k)%nat → linked_sized k st → current st ≠ ∅.
Proof.
  intros Hk [_ [Hs _]] He. rewrite He, size_empty in Hs. lia.
Qed.

(** *** The initial state *)

Lemma init_Ok g0 :
  0 ≤ Max_Node ≤ Z.of_nat (length (nodes G)) →
  let smp := (sample_pool g0 (nodes G) (Z.to_nat Max_Node)).1 in
  ∃ st0, init g0 = Ok st0
         ∧ linked st0
         ∧ current st0 = list_to_set smp
         ∧ best st0 = list_to_set smp
         ∧ best_covered st0 = count (list_to_set smp)
         ∧ current_temp st0 = initial_temp
         ∧ no_improvement_iterations st0 = 0.
Proof.
  intros Hk smp. unfold Improved.init, sample. rewrite decide_True by done.
  simpl. subst smp. destruct (sample_pool g0 (nodes G) (Z.to_nat Max_Node)) as [smp g1].
  simpl. eexists; split; [done|].
  unfold Improved.linked, current, best, deref; simpl.
  rewrite (lookup_total_insert_ne _ 1%nat 0%nat) by lia.
  rewrite !lookup_total_insert_eq. repeat split; lia.
Qed.

Lemma init_Raise g0 :
  ¬ (0 ≤ Max_Node ≤ Z.of_nat (length (nodes G))) →
  init g0 = Raise ValueError.
Proof.
  intros Hk. unfold Improved.init, sample. by rewrite decide_False.
Qed.

(** *** Runs *)

Lemma after_linked g0 k st : after k g0 = Ok st → linked st.
Proof.
  unfold Improved.after. intros (st0 & Hi & Hl)%bind_Ok.
  destruct (decide (0 ≤ Max_Node ≤ Z.of_nat (length (nodes G)))) as [Hk|Hk].
  - destruct (init_Ok g0 Hk) as (st0' & Hi' & L & _).
    rewrite Hi in Hi'. injection Hi' as <-. by eapply loop_linked.
  - by rewrite (init_Raise g0 Hk) in Hi.
Qed.

(** With a sample that is not empty, every prefix of the run completes, and
    both sets keep the size of the sample. *)
Lemma after_Ok g0 k :
  0 < Max_Node ≤ Z.of_nat (length (nodes G)) →
  let smp := (sample_pool g0 (nodes G) (Z.to_nat Max_Node)).1 in
  (0 < size (list_to_set smp : gset V))%nat
  ∧ ∃ st, after k g0 = Ok st
          ∧ linked_sized (size (list_to_set smp : gset V)) st.
Proof.
  intros Hk smp.
  assert (Hlen : length smp = Z.to_nat Max_Node)
    by (apply sample_pool_length; lia).
  assert (Hpos : (0 < size (list_to_set smp : gset V))%nat).
  { destruct smp as [|x smp']; [simpl in Hlen; lia|].
    assert (size (list_to_set (x :: smp') : gset V) ≠ 0)%nat; [|lia].
    apply size_non_empty_iff. intros He.
    assert (Hx : x ∈ (list_to_set (x :: smp') : gset V))
      by (apply elem_of_list_to_set, elem_of_cons; by left).
    rewrite He in Hx. by apply not_elem_of_empty in Hx. }
  split; [exact Hpos|].
  destruct (init_Ok g0 ltac:(lia)) as (st0 & Hi & L & Hc & Hb & _).
  fold smp in Hc, Hb.
  assert (LS : linked_sized (size (list_to_set smp : gset V)) st0).
  { split; [exact L|]. split; congruence. }
  destruct (loop_total (linked_sized (size (list_to_set smp : gset V)))
              (body_linked_sized _)
              (λ st, sized_nonempty _ st Hpos) k 0 st0 LS)
    as [st Hl].
  exists st. unfold Improved.after. rewrite Hi. simpl. split; [exact Hl|].
  eapply (loop_invariant (linked_sized _)); [apply body_linked_sized|exact LS|exact Hl].
Qed.

Lemma run_after g0 n :
  n = Z.to_nat max_iteration →
  run g0 = st ← after n g0;
           Ok (list_of_set (mem st) (best_solution st), best_covered st).
Proof. by intros ->. Qed.

(** A pass that has a move, seen from its inputs. *)
Lemma body_move i st node_out node_in g1 :
  no_improvement_iterations st < early_stop →
  propose st = Ok (Some (node_out, node_in), g1) →
  let new_covered := count (candidate st node_out node_in) in
  let decision :=
    accept (new_covered - best_covered st) (current_temp st) g1 in
  ∃ m3, next m3 = S (next (mem st))
        ∧ deref m3 (next (mem st)) = candidate st node_out node_in
        ∧ (∀ l, l ≠ next (mem st) → deref m3 l = deref (mem st) l)
        ∧ body i st
          = Ok (Next, update i st m3 (next (mem st)) new_covered
                        decision.1 decision.2).
Proof.
  intros Hgo Hp new_covered decision.
  assert (Hne : current st ≠ ∅).
  { destruct (propose_members _ _ _ _ Hp) as [Hout _]. intros He.
    rewrite He in Hout. by apply not_elem_of_empty in Hout. }
  destruct (body_total i st Hne) as (f & st' & Hb).
  pose proof (body_pass _ _ _ _ Hb) as P.
  destruct P as [|g1' ? Hp'|o' n' g1' m3 ? Hp' Hnext Hnew Hold]; [lia| |].
  - rewrite Hp in Hp'. discriminate.
  - rewrite Hp in Hp'. injection Hp' as <- <- <-.
    exists m3. by repeat split.
Qed.

Lemma loop_best_covered n i st st' :
  loop n i st = Ok st' → best_covered st ≤ best_covered st'.
Proof.
  apply (loop_invariant (λ s, best_covered st ≤ best_covered s)); [|lia].
  intros j s f s' Hle P%body_pass.
  destruct (pass_best_covered _ _ _ _ P) as [->|[? _]]; lia.
Qed.

(** *** The properties of the improved variant *)

(** C3. Cardinality invariant: on a graph whose [N] nodes are distinct and
    for [0 < Max_Node <= N], every prefix of the run completes and leaves a
    current solution of exactly [Max_Node] members (the prefix of length [0]
    is the initial state); a pass that rebinds the current solution has
    taken out one member and put in one non-member; and the run returns a
    duplicate-free cover of [Max_Node] vertices. *)
Theorem cardinality_invariant :
  NoDup (nodes G) →
  0 < Max_Node ≤ Z.of_nat (length (nodes G)) →
  ∀ g0,
    (∀ k, (k ≤ Z.to_nat max_iteration)%nat →
          ∃ st, after k g0 = Ok st ∧ size (current st) = Z.to_nat Max_Node)
    ∧ (∀ i st f st',
          body i st = Ok (f, st') →
          current_solution st' ≠ current_solution st →
          ∃ node_out node_in,
            node_out ∈ current st ∧ (node_in ∉ current st)
            ∧ current st' = {[node_in]} ∪ (current st ∖ {[node_out]}))
    ∧ ∃ cover c, run g0 = Ok (cover, c)
                 ∧ length cover = Z.to_nat Max_Node ∧ NoDup cover.
Proof.
  intros Hnd Hk g0.
  assert (Hsize : size (list_to_set
                          (sample_pool g0 (nodes G) (Z.to_nat Max_Node)).1
                        : gset V) = Z.to_nat Max_Node).
  { rewrite size_list_to_set by by apply sample_pool_NoDup.
    apply sample_pool_length. lia. }
  split; [|split].
  - intros k _. destruct (after_Ok g0 k Hk) as (_ & st & Ha & _ & [Hs _]).
    exists st. split; [exact Ha|]. by rewrite <- Hsize.
  - intros i st f st' P%body_pass Hne.
    destruct P as [|g1 ? ?|o n g1 m3 ? Hp Hnext Hnew Hold]; [done|done|].
    destruct (propose_members _ _ _ _ Hp) as (Hout & _ & Hin).
    destruct (update_fields i st m3 (next (mem st)) new_covered
                decision.1 decision.2) as (Hm & _ & _ & Hc & _).
    exists o, n. split; [exact Hout|]. split; [exact Hin|].
    rewrite Hc in Hne. unfold current at 1. rewrite Hm, Hc.
    destruct decision.1; [exact Hnew | done].
  - destruct (after_Ok g0 (Z.to_nat max_iteration) Hk)
      as (_ & st & Ha & _ & [_ Hs]).
    rewrite (run_after g0 _ eq_refl), Ha. simpl.
    eexists _, _. split; [done|]. unfold list_of_set. split.
    + rewrite <- Hsize, <- Hs. done.
    + apply NoDup_elements.
Qed.

(** C5, as the code has it. On a pass with no non-member node (and a member
    to draw for [node_out]), the body takes the [continue] of line 71: the
    loop goes on with the next index, and the store, both references,
    [best_covered], the stagnation counter and the temperature are what they
    were. The cooling statement of line 95 is skipped with the rest of the
    body. *)
Theorem no_move_pass i st n :
  no_improvement_iterations st < early_stop →
  current st ≠ ∅ →
  (∀ v, v ∈ nodes G → v ∈ current st) →
  ∃ st', body i st = Ok (Next, st')
         ∧ loop (S n) i st = loop n (i + 1) st'
         ∧ mem st' = mem st
         ∧ current_solution st' = current_solution st
         ∧ best_solution st' = best_solution st
         ∧ best_covered st' = best_covered st
         ∧ no_improvement_iterations st' = no_improvement_iterations st
         ∧ current_temp st' = current_temp st.
Proof.
  intros Hgo Hne Hall.
  assert (Hcs : node_in_candidates G st = []).
  { destruct (node_in_candidates G st) as [|c cs] eqn:Hc; [done|].
    assert (Hin : c ∈ node_in_candidates G st)
      by (rewrite Hc; apply elem_of_cons; by left).
    apply list_elem_of_filter in Hin as [Hnot Hv]. by apply Hall in Hv. }
  destruct (propose_total st Hne) as [move Hp].
  assert (move = None) as ->.
  { apply propose_Ok in Hp as (_ & o & _ & Hmv).
    destruct move as [[? ?]|]; [|done].
    destruct Hmv as (_ & c & cs & Hc & _). by rewrite Hcs in Hc. }
  assert (Hb : body i st = Ok (Next, skip st (advance (gen st)))).
  { unfold Improved.body. rewrite decide_False by lia. by rewrite Hp. }
  exists (skip st (advance (gen st))). split; [exact Hb|].
  split; [simpl; by rewrite Hb|]. done.
Qed.

(** C6. The stagnation counter. With the counter at or above [early_stop]
    the loop stops at once, whatever indices are left. Below it: a pass
    without a move leaves the counter alone; a pass with a move returns, and
    its counter is [0] after an accepted move that beats [best_covered], one
    more after an accepted move that does not, and unchanged after a
    rejected move. *)
Theorem stagnation_counter :
  (∀ n i st,
      early_stop ≤ no_improvement_iterations st →
      body i st = Ok (Break, st) ∧ loop (S n) i st = Ok st)
  ∧ (∀ i st g1,
      no_improvement_iterations st < early_stop →
      propose st = Ok (None, g1) →
      ∃ st', body i st = Ok (Next, st')
             ∧ no_improvement_iterations st' = no_improvement_iterations st)
  ∧ (∀ i st node_out node_in g1,
      no_improvement_iterations st < early_stop →
      propose st = Ok (Some (node_out, node_in), g1) →
      let new_covered := count (candidate st node_out node_in) in
      let accepted :=
        (accept (new_covered - best_covered st) (current_temp st) g1).1 in
      ∃ st', body i st = Ok (Next, st')
             ∧ no_improvement_iterations st'
               = if accepted
                 then if bool_decide (best_covered st < new_covered) then 0
                      else no_improvement_iterations st + 1
                 else no_improvement_iterations st).
Proof.
  split; [|split].
  - intros n i st Hstop.
    assert (Hb : body i st = Ok (Break, st))
      by (unfold Improved.body; by rewrite decide_True).
    split; [exact Hb|]. simpl. by rewrite Hb.
  - intros i st g1 Hgo Hp. exists (skip st g1). split; [|done].
    unfold Improved.body. rewrite decide_False by lia. by rewrite Hp.
  - intros i st o n g1 Hgo Hp new_covered accepted.
    assert (Hne : current st ≠ ∅).
    { destruct (propose_members _ _ _ _ Hp) as [Hout _]. intros He.
      rewrite He in Hout. by apply not_elem_of_empty in Hout. }
    destruct (body_total i st Hne) as (f & st' & Hb).
    pose proof (body_pass _ _ _ _ Hb) as P.
    destruct P as [|g1' ? Hp'|o' n' g1' m3 ? Hp' Hnext Hnew Hold]; [lia| |].
    + rewrite Hp in Hp'. discriminate.
    + rewrite Hp in Hp'. injection Hp' as <- <- <-.
      eexists. split; [exact Hb|].
      by destruct (update_fields i st m3 (next (mem st)) new_covered0
                     decision.1 decision.2) as (_ & _ & _ & _ & _ & _ & ->).
Qed.

(** C7. The move of the improved variant. With a member in the current
    solution and a node outside it, a move is proposed. The node taken out
    is the member at the drawn index of [list(current_solution)], a list
    that holds every member exactly once, so a uniform index is a uniform
    member. The node put in is a node of the graph outside the current
    solution whose degree no other such node exceeds, and every candidate
    that comes before it in node order has a strictly smaller degree. *)
Theorem move_generator st :
  (current st ≠ ∅ →
   (∃ v, v ∈ nodes G ∧ v ∉ current st) →
   ∃ node_out node_in,
     propose st = Ok (Some (node_out, node_in), advance (gen st)))
  ∧ (∀ node_out node_in g1,
       propose st = Ok (Some (node_out, node_in), g1) →
       let members := list_of_set (mem st) (current_solution st) in
       (members !! (raw (gen st) (pos (gen st)) mod length members)%nat
        = Some node_out
        ∧ NoDup members
        ∧ ∀ v, v ∈ members ↔ v ∈ current st)
       ∧ (node_in ∈ nodes G
          ∧ (node_in ∉ current st)
          ∧ (∀ v, v ∈ nodes G → v ∉ current st →
                  (degree G v ≤ degree G node_in)%nat)
          ∧ ∃ before behind,
              node_in_candidates G st = before ++ node_in :: behind
              ∧ ∀ v, v ∈ before → (degree G v < degree G node_in)%nat)).
Proof.
  split.
  - intros Hne (v & Hv & Hnot).
    destruct (propose_total st Hne) as [move Hp].
    destruct move as [[o n]|]; [eauto|].
    apply propose_Ok in Hp as (_ & _ & _ & Hcs).
    assert (Hin : v ∈ node_in_candidates G st)
      by (by apply list_elem_of_filter).
    rewrite Hcs in Hin. by apply elem_of_nil in Hin.
  - intros o n g1 Hp members.
    destruct (propose_members _ _ _ _ Hp) as (Hout & Hn & Hnot).
    apply propose_Ok in Hp as (_ & o' & Ho & <- & c & cs & Hcs & ->).
    split; [|split; [exact Hn|split; [exact Hnot|split]]].
    + split; [exact Ho|]. split; [apply NoDup_elements|].
      intros v. apply elem_of_elements.
    + intros v Hv Hvn. apply max_by_ge. rewrite <- Hcs.
      by apply list_elem_of_filter.
    + rewrite Hcs. apply max_by_first.
Qed.

(** C8, as the code has it. The parameters are not validated. A [Max_Node]
    that is negative or larger than the number of nodes fails in
    [random.sample], with [ValueError], before any state exists; this is the
    fate of an empty graph with a positive [Max_Node]. With [Max_Node]
    in range and [max_iteration <= 0] the run returns the initial sample and
    its score. With [0 < Max_Node] in range the run returns a result for
    every [initial_temp] and every [max_iteration]. With [Max_Node = 0] and
    a pass to make, the first pass fails with [IndexError]. *)
Theorem parameter_failures g0 :
  (¬ (0 ≤ Max_Node ≤ Z.of_nat (length (nodes G))) →
   init g0 = Raise ValueError ∧ run g0 = Raise ValueError)
  ∧ (0 ≤ Max_Node ≤ Z.of_nat (length (nodes G)) →
     max_iteration ≤ 0 →
     ∃ st0, init g0 = Ok st0
            ∧ run g0 = Ok (list_of_set (mem st0) (best_solution st0),
                           best_covered st0))
  ∧ (0 < Max_Node ≤ Z.of_nat (length (nodes G)) →
     ∃ cover c, run g0 = Ok (cover, c))
  ∧ (Max_Node = 0 → 0 < max_iteration → 0 < early_stop →
     run g0 = Raise IndexError).
Proof.
  split; [|split; [|split]].
  - intros Hk. pose proof (init_Raise g0 Hk) as Hi. split; [exact Hi|].
    unfold improved_simulated_annealing_VertexCover, Improved.after.
    by rewrite Hi.
  - intros Hk Hmax. destruct (init_Ok g0 Hk) as (st0 & Hi & _).
    exists st0. split; [exact Hi|].
    unfold improved_simulated_annealing_VertexCover, Improved.after.
    rewrite Hi. by replace (Z.to_nat max_iteration) with O by lia.
  - intros Hk.
    destruct (after_Ok g0 (Z.to_nat max_iteration) Hk) as (_ & st & Ha & _).
    rewrite (run_after g0 _ eq_refl), Ha. simpl. eauto.
  - intros Hk Hmax Hstop.
    destruct (init_Ok g0 ltac:(lia)) as (st0 & Hi & _ & Hc & _ & _ & _ & Hni).
    rewrite Hk in Hc. simpl in Hc.
    unfold improved_simulated_annealing_VertexCover, Improved.after.
    rewrite Hi. simpl.
    destruct (Z.to_nat max_iteration) as [|n] eqn:Hn; [lia|]. simpl.
    unfold Improved.body. rewrite decide_False by lia.
    by rewrite (propose_empty st0 Hc).
Qed.

(** C9. Zero iterations: with [max_iteration = 0] and [Max_Node] in range,
    the run is the initial state's: it returns the members of the sample
    drawn by [random.sample] and the score of that sample. *)
Theorem zero_iterations g0 :
  max_iteration = 0 →
  0 ≤ Max_Node ≤ Z.of_nat (length (nodes G)) →
  ∃ smp g1,
    sample g0 (nodes G) Max_Node = Ok (smp, g1)
    ∧ length smp = Z.to_nat Max_Node
    ∧ run g0 = Ok (elements (list_to_set smp : gset V),
                   count (list_to_set smp)).
Proof.
  intros Hmax Hk.
  destruct (init_Ok g0 Hk) as (st0 & Hi & _ & _ & Hb & Hbc & _).
  exists (sample_pool g0 (nodes G) (Z.to_nat Max_Node)).1,
         (sample_pool g0 (nodes G) (Z.to_nat Max_Node)).2.
  split; [|split].
  - unfold sample. rewrite decide_True by done. by destruct (sample_pool _ _ _).
  - apply sample_pool_length. lia.
  - unfold improved_simulated_annealing_VertexCover, Improved.after.
    rewrite Hi, Hmax. simpl. unfold list_of_set. fold (best st0).
    by rewrite Hb, Hbc.
Qed.

(** C10. The returned pair is consistent: whenever the run returns
    [(cover, c)], [c] is [count_covered_edges] of the returned cover. The
    object [best_solution] refers to is never written after the assignment
    of line 88: each candidate is a fresh copy. *)
Theorem returned_pair_consistent g0 cover c :
  improved_simulated_annealing_VertexCover
    G np_exp Max_Node initial_temp cooling_rate max_iteration early_stop g0
  = Ok (cover, c) →
  c = count_covered_edges G (list_to_set cover).
Proof.
  rewrite (run_after g0 _ eq_refl). intros (st & Ha & Hr)%bind_Ok.
  injection Hr as <- <-.
  destruct (after_linked _ _ _ Ha) as (_ & _ & Hcov).
  unfold list_of_set. rewrite list_to_set_elements_L. exact Hcov.
Qed.

End ImprovedFacts.

(** ** The baseline variant: the loop body *)

Section BaselineFacts.
Context `{Countable V}.
Variable G : Graph V.
Variable np_exp : float → float.
Variable cooling_rate : float.

Import Baseline.

Local Abbreviation propose := (propose G).
Local Abbreviation accept := (accept np_exp).
Local Abbreviation update := (update cooling_rate).
Local Abbreviation body := (body G np_exp cooling_rate).
Local Abbreviation loop := (loop G np_exp cooling_rate).
Local Abbreviation count := (count_covered_edges G).

Implicit Types (st : state V) (g : rng).

Lemma baseline_propose_members st node_out node_in g1 :
  propose st = Ok (node_out, node_in, g1) →
  node_out ∈ current st ∧ node_in ∈ nodes G ∧ node_in ∉ current st.
Proof.
  unfold Baseline.propose.
  intros ([o g] & [_ Ho]%choice_Ok & Hp)%bind_Ok.
  apply bind_Ok in Hp as ([n g'] & [_ Hn]%choice_Ok & Hp).
  injection Hp as <- <- <-. split.
  - apply list_elem_of_lookup_2 in Ho. unfold list_of_set in Ho.
    by apply elem_of_elements in Ho.
  - apply list_elem_of_lookup_2, list_elem_of_filter in Hn as [? ?]. done.
Qed.

(** The body, once the move is drawn: the decision on
    [new_covered - best_covered], then the update. *)
Lemma baseline_body_move st node_out node_in g1 :
  propose st = Ok (node_out, node_in, g1) →
  let new_covered := count (candidate st node_out node_in) in
  ∃ m3, next m3 = S (next (mem st))
        ∧ deref m3 (next (mem st)) = candidate st node_out node_in
        ∧ (∀ l, l ≠ next (mem st) → deref m3 l = deref (mem st) l)
        ∧ body st
          = '(accepted, g2) ←
              accept (new_covered - best_covered st) (current_temp st) g1;
            Ok (update st m3 (next (mem st)) new_covered accepted g2).
Proof.
  intros Hp new_covered.
  destruct (baseline_propose_members _ _ _ _ Hp) as (Hout & _ & _).
  destruct (swap_store (mem st) (current_solution st) node_out node_in Hout)
    as (m2 & Hrm & Hnext & Hnew & Hold).
  exists (set_add m2 (next (mem st)) node_in).
  split; [exact Hnext|]. split; [exact Hnew|]. split; [exact Hold|].
  unfold Baseline.body. rewrite Hp. simpl.
  unfold set_copy in *. simpl in *. rewrite Hrm. simpl. by rewrite Hnew.
Qed.

Lemma baseline_body_Ok st st' :
  body st = Ok st' →
  ∃ node_out node_in g1 m3 accepted g2,
    propose st = Ok (node_out, node_in, g1)
    ∧ deref m3 (next (mem st)) = candidate st node_out node_in
    ∧ accept (count (candidate st node_out node_in) - best_covered st)
        (current_temp st) g1 = Ok (accepted, g2)
    ∧ st' = update st m3 (next (mem st))
              (count (candidate st node_out node_in)) accepted g2.
Proof.
  intros Hb.
  destruct (propose st) as [[[o n] g1]|e] eqn:Hp.
  - destruct (baseline_body_move _ _ _ _ Hp) as (m3 & _ & Hnew & _ & Hb').
    rewrite Hb' in Hb. apply bind_Ok in Hb as ([accepted g2] & Hacc & Hu).
    injection Hu as <-. by exists o, n, g1, m3, accepted, g2.
  - unfold Baseline.body in Hb. by rewrite Hp in Hb.
Qed.

Lemma baseline_update_fields st m new_solution c accepted g :
  let st' := update st m new_solution c accepted g in
  mem st' = m
  ∧ current_solution st'
    = (if accepted then new_solution else current_solution st)
  ∧ best_covered st'
    = (if accepted && bool_decide (best_covered st < c)
       then c else best_covered st).
Proof.
  unfold Baseline.update. destruct accepted; simpl; [|done].
  case_decide; [rewrite bool_decide_eq_true_2 by done
               |rewrite bool_decide_eq_false_2 by done]; done.
Qed.

Lemma baseline_body_best_covered st st' :
  body st = Ok st' →
  best_covered st' = best_covered st
  ∨ (best_covered st < best_covered st'
     ∧ best_covered st' = count (current st')).
Proof.
  intros (o & n & g1 & m3 & accepted & g2 & _ & Hnew & _ & ->)%baseline_body_Ok.
  destruct (baseline_update_fields st m3 (next (mem st))
              (count (candidate st o n)) accepted g2) as (Hm & Hc & Hbc).
  unfold current at 1. rewrite Hm, Hc, Hbc.
  destruct accepted; simpl; [|by left].
  case_bool_decide; [right|by left]. by rewrite Hnew.
Qed.

Lemma baseline_loop_best_covered n : ∀ st st',
  loop n st = Ok st' → best_covered st ≤ best_covered st'.
Proof.
  induction n as [|n IHn]; intros st st' Hl; simpl in Hl.
  - injection Hl as <-. lia.
  - apply bind_Ok in Hl as (st1 & Hb & Hl). apply IHn in Hl.
    destruct (baseline_body_best_covered _ _ Hb) as [Heq|[Hlt _]]; lia.
Qed.

End BaselineFacts.

(** ** Both variants *)

Section Variants.
Context `{Countable V}.
Variable G : Graph V.
Variable np_exp : float → float.
Variable cooling_rate : float.
Variables (max_iteration early_stop : Z).

Local Abbreviation count := (count_covered_edges G).
Local Abbreviation improved_body :=
  (Improved.body G np_exp cooling_rate max_iteration early_stop).
Local Abbreviation improved_loop :=
  (Improved.loop G np_exp cooling_rate max_iteration early_stop).
Local Abbreviation improved_update :=
  (Improved.update cooling_rate max_iteration).
Local Abbreviation baseline_body := (Baseline.body G np_exp cooling_rate).
Local Abbreviation baseline_loop := (Baseline.loop G np_exp cooling_rate).
Local Abbreviation baseline_update := (Baseline.update cooling_rate).

(** The guarded decision of the improved variant, case by case. *)
Lemma improved_accept_cases (d : Z) (temp : float) (g : rng) :
  Improved.accept np_exp d temp g
  = if PrimFloat.ltb 0 temp
    then if bool_decide (0 < d) then (true, g)
         else (PrimFloat.ltb (unif g (pos g))
                 (np_exp (PrimFloat.div (float_of_Z d) temp)), advance g)
    else (false, g).
Proof.
  unfold Improved.accept. destruct (PrimFloat.ltb 0 temp); [|done].
  case_decide; [by rewrite bool_decide_eq_true_2
               |by rewrite bool_decide_eq_false_2].
Qed.

(** The decision of the baseline, case by case. *)
Lemma baseline_accept_cases (d : Z) (temp : float) (g : rng) :
  Baseline.accept np_exp d temp g
  = if bool_decide (0 < d) then Ok (true, g)
    else if PrimFloat.eqb temp 0 then Raise ZeroDivisionError
         else Ok (PrimFloat.ltb (unif g (pos g))
                    (np_exp (PrimFloat.div (float_of_Z d) temp)), advance g).
Proof.
  unfold Baseline.accept.
  case_decide; [by rewrite bool_decide_eq_true_2
               |by rewrite bool_decide_eq_false_2].
Qed.

(** What the update does to the reference [current_solution]. *)
Lemma improved_update_current i (st : Improved.state V) m3 c accepted g o n :
  deref m3 (next (Improved.mem st)) = Improved.candidate st o n →
  let st' := improved_update i st m3 (next (Improved.mem st)) c accepted g in
  if accepted
  then Improved.current_solution st' = next (Improved.mem st)
       ∧ Improved.current st' = Improved.candidate st o n
  else Improved.current_solution st' = Improved.current_solution st
       ∧ Improved.best_solution st' = Improved.best_solution st
       ∧ Improved.best_covered st' = Improved.best_covered st
       ∧ Improved.no_improvement_iterations st'
         = Improved.no_improvement_iterations st.
Proof.
  intros Hnew st'.
  destruct (update_fields cooling_rate max_iteration i st m3
              (next (Improved.mem st)) c accepted g)
    as (Hm & _ & _ & Hc & Hb & Hbc & Hni).
  fold st' in Hm, Hc, Hb, Hbc, Hni. destruct accepted; [|done].
  split; [exact Hc|]. unfold Improved.current. by rewrite Hm, Hc.
Qed.

Lemma baseline_update_current (st : Baseline.state V) m3 c accepted g o n :
  deref m3 (next (Baseline.mem st)) = Baseline.candidate st o n →
  let st' := baseline_update st m3 (next (Baseline.mem st)) c accepted g in
  if accepted
  then Baseline.current_solution st' = next (Baseline.mem st)
       ∧ Baseline.current st' = Baseline.candidate st o n
  else Baseline.current_solution st' = Baseline.current_solution st.
Proof.
  intros Hnew st'.
  destruct (baseline_update_fields cooling_rate st m3
              (next (Baseline.mem st)) c accepted g) as (Hm & Hc & _).
  fold st' in Hm, Hc. destruct accepted; [|exact Hc].
  split; [exact Hc|]. unfold Baseline.current. by rewrite Hm, Hc.
Qed.

(** C1. The score delta the decision is taken on is the candidate's
    covered-edge count minus [best_covered], in both variants and on every
    pass that has a move: the body is the update by the decision on
    [new_covered - best_covered], where [new_covered] is the score of the
    candidate. The score of the current solution does not enter. *)
Theorem score_delta_against_best :
  (∀ i (st : Improved.state V) node_out node_in g1,
      Improved.no_improvement_iterations st < early_stop →
      Improved.propose G st = Ok (Some (node_out, node_in), g1) →
      let new_covered := count (Improved.candidate st node_out node_in) in
      let new_best_difference := new_covered - Improved.best_covered st in
      let decision :=
        Improved.accept np_exp new_best_difference
          (Improved.current_temp st) g1 in
      ∃ m3,
        deref m3 (next (Improved.mem st))
        = Improved.candidate st node_out node_in
        ∧ improved_body i st
          = Ok (Next, improved_update i st m3 (next (Improved.mem st))
                        new_covered decision.1 decision.2))
  ∧ (∀ (st : Baseline.state V) node_out node_in g1,
      Baseline.propose G st = Ok (node_out, node_in, g1) →
      let new_covered := count (Baseline.candidate st node_out node_in) in
      let new_best_difference := new_covered - Baseline.best_covered st in
      ∃ m3,
        deref m3 (next (Baseline.mem st))
        = Baseline.candidate st node_out node_in
        ∧ baseline_body st
          = '(accepted, g2) ←
              Baseline.accept np_exp new_best_difference
                (Baseline.current_temp st) g1;
            Ok (baseline_update st m3 (next (Baseline.mem st))
                  new_covered accepted g2)).
Proof.
  split.
  - intros i st o n g1 Hgo Hp new_covered d decision.
    destruct (body_move G np_exp cooling_rate max_iteration early_stop
                i st o n g1 Hgo Hp) as (m3 & _ & Hnew & _ & Hb).
    by exists m3.
  - intros st o n g1 Hp new_covered d.
    destruct (baseline_body_move G np_exp cooling_rate st o n g1 Hp)
      as (m3 & _ & Hnew & _ & Hb).
    by exists m3.
Qed.

(** C2, as the code has it. Improved variant: a pass with a move returns;
    with a positive temperature the move is accepted when the score delta is
    positive, and otherwise exactly when the uniform draw is below
    [exp(scoreDelta / temperature)]; with a temperature that is not
    positive the move is rejected, whatever the score delta, an improving
    move included. Baseline: a pass that returns has accepted the move when
    the score delta is positive, whatever the temperature, and otherwise
    exactly when the draw is below [exp(scoreDelta / temperature)]; there is
    no guard on the temperature. An accepted move rebinds [current_solution]
    to the candidate; a rejected move leaves the reference as it is, and in
    the improved variant the best solution, its score and the stagnation
    counter with it. *)
Theorem acceptance_rule :
  (∀ i (st : Improved.state V) node_out node_in g1,
      Improved.no_improvement_iterations st < early_stop →
      Improved.propose G st = Ok (Some (node_out, node_in), g1) →
      let scoreDelta :=
        count (Improved.candidate st node_out node_in)
        - Improved.best_covered st in
      let temperature := Improved.current_temp st in
      let draw_below :=
        PrimFloat.ltb (unif g1 (pos g1))
          (np_exp (PrimFloat.div (float_of_Z scoreDelta) temperature)) in
      ∃ st',
        improved_body i st = Ok (Next, st')
        ∧ let accepted :=
            Improved.current_solution st' = next (Improved.mem st)
            ∧ Improved.current st' = Improved.candidate st node_out node_in in
          let rejected :=
            Improved.current_solution st' = Improved.current_solution st
            ∧ Improved.best_solution st' = Improved.best_solution st
            ∧ Improved.best_covered st' = Improved.best_covered st
            ∧ Improved.no_improvement_iterations st'
              = Improved.no_improvement_iterations st in
          (PrimFloat.ltb 0 temperature = true → 0 < scoreDelta → accepted)
          ∧ (PrimFloat.ltb 0 temperature = true → scoreDelta ≤ 0 →
             if draw_below then accepted else rejected)
          ∧ (PrimFloat.ltb 0 temperature = false → rejected))
  ∧ (∀ (st st' : Baseline.state V) node_out node_in g1,
      Baseline.propose G st = Ok (node_out, node_in, g1) →
      baseline_body st = Ok st' →
      let scoreDelta :=
        count (Baseline.candidate st node_out node_in)
        - Baseline.best_covered st in
      let temperature := Baseline.current_temp st in
      let draw_below :=
        PrimFloat.ltb (unif g1 (pos g1))
          (np_exp (PrimFloat.div (float_of_Z scoreDelta) temperature)) in
      let accepted :=
        Baseline.current_solution st' = next (Baseline.mem st)
        ∧ Baseline.current st' = Baseline.candidate st node_out node_in in
      let rejected :=
        Baseline.current_solution st' = Baseline.current_solution st in
      (0 < scoreDelta → accepted)
      ∧ (scoreDelta ≤ 0 → if draw_below then accepted else rejected)).
Proof.
  split.
  - intros i st o n g1 Hgo Hp d temp draw_below.
    destruct (body_move G np_exp cooling_rate max_iteration early_stop
                i st o n g1 Hgo Hp) as (m3 & _ & Hnew & _ & Hb).
    eexists. split; [exact Hb|]. simpl. fold d temp.
    pose proof (improved_update_current i st m3
                  (count (Improved.candidate st o n))
                  (Improved.accept np_exp d temp g1).1
                  (Improved.accept np_exp d temp g1).2 o n Hnew) as Hu.
    simpl in Hu. rewrite improved_accept_cases in Hu |- *.
    fold draw_below in Hu |- *.
    split; [|split].
    + intros Ht Hd. rewrite Ht in Hu |- *.
      by rewrite bool_decide_eq_true_2 in Hu |- * by done.
    + intros Ht Hd. rewrite Ht in Hu |- *.
      rewrite bool_decide_eq_false_2 in Hu |- * by lia.
      simpl in Hu |- *. by destruct draw_below.
    + intros Ht. by rewrite Ht in Hu |- *.
  - intros st st' o n g1 Hp Hb d temp draw_below.
    destruct (baseline_body_move G np_exp cooling_rate st o n g1 Hp)
      as (m3 & _ & Hnew & _ & Hb').
    rewrite Hb' in Hb. apply bind_Ok in Hb as ([accepted g2] & Hacc & Hu).
    injection Hu as <-. fold d temp in Hacc.
    pose proof (baseline_update_current st m3
                  (count (Baseline.candidate st o n)) accepted g2 o n Hnew)
      as Hu.
    simpl in Hu |- *.
    rewrite baseline_accept_cases in Hacc. fold draw_below in Hacc.
    split.
    + intros Hd. rewrite bool_decide_eq_true_2 in Hacc by done.
      injection Hacc as <- _. exact Hu.
    + intros Hd. rewrite bool_decide_eq_false_2 in Hacc by lia.
      destruct (PrimFloat.eqb temp 0); [discriminate|].
      injection Hacc as <- _. exact Hu.
Qed.

(** C4. [best_covered] does not decrease. In both variants a pass of the
    loop body leaves it as it was or strictly larger, and when it is larger
    it is the score of the candidate, now the current solution, which
    strictly exceeds the old value; over any number of passes it does not
    decrease. *)
Theorem best_covered_monotone :
  (∀ i (st : Improved.state V) f st',
      improved_body i st = Ok (f, st') →
      Improved.best_covered st' = Improved.best_covered st
      ∨ (Improved.best_covered st < Improved.best_covered st'
         ∧ Improved.best_covered st' = count (Improved.current st')))
  ∧ (∀ n i (st st' : Improved.state V),
      improved_loop n i st = Ok st' →
      Improved.best_covered st ≤ Improved.best_covered st')
  ∧ (∀ (st st' : Baseline.state V),
      baseline_body st = Ok st' →
      Baseline.best_covered st' = Baseline.best_covered st
      ∨ (Baseline.best_covered st < Baseline.best_covered st'
         ∧ Baseline.best_covered st' = count (Baseline.current st')))
  ∧ (∀ n (st st' : Baseline.state V),
      baseline_loop n st = Ok st' →
      Baseline.best_covered st ≤ Baseline.best_covered st').
Proof.
  split; [|split; [|split]].
  - intros i st f st' P%body_pass.
    destruct (pass_best_covered _ _ _ _ _ _ _ _ _ P) as [?|(? & ? & _)]; auto.
  - intros n i st st'. apply loop_best_covered.
  - intros st st'. apply baseline_body_best_covered.
  - intros n st st'. apply baseline_loop_best_covered.
Qed.

End Variants.

(** * The properties on sample inputs *)

Section Runs.
Import Samples.

(** The source's default parameters that the runs below keep. *)
Local Abbreviation improved_run G Max_Node initial_temp max_iteration :=
  (Improved.improved_simulated_annealing_VertexCover
     G step_exp Max_Node initial_temp rate max_iteration 150
     (tape 0 0.5%float)).

(** The sample states are initial states. *)
Example init_warm :
  Improved.init path3 1 1500%float (tape 0 0.5%float) = Ok warm.
Proof. vm_compute. reflexivity. Qed.

Example init_cold :
  Improved.init path3 1 0%float (tape 0 0.5%float) = Ok cold.
Proof. vm_compute. reflexivity. Qed.

Example init_full :
  Improved.init single 1 1500%float (tape 0 0.5%float) = Ok full.
Proof. vm_compute. reflexivity. Qed.

(** [path3], one node allowed, starting from the isolated node: the first
    pass swaps it for node 2 and covers the edge. *)
Example improved_run_path3 : improved_run path3 1 1500%float 10 = Ok ([2%nat], 1).
Proof. vm_compute. reflexivity. Qed.

(** The cycle, two nodes allowed: the run ends on two opposite nodes. *)
Example improved_run_cycle4 :
  improved_run cycle4 2 1500%float 10 = Ok ([3; 1]%nat, 4).
Proof. vm_compute. reflexivity. Qed.

(** *** C1 *)

Lemma score_delta_against_best_witness :
  ∃ m3,
    deref m3 (next (Improved.mem warm)) = Improved.candidate warm 1%nat 2%nat
    ∧ Improved.body path3 step_exp rate 10 150 0 warm
      = Ok (Next,
            Improved.update rate 10 0 warm m3 (next (Improved.mem warm))
              (count_covered_edges path3 (Improved.candidate warm 1%nat 2%nat))
              (Improved.accept step_exp
                 (count_covered_edges path3
                    (Improved.candidate warm 1%nat 2%nat)
                  - Improved.best_covered warm)
                 (Improved.current_temp warm)
                 (advance (Improved.gen warm))).1
              (Improved.accept step_exp
                 (count_covered_edges path3
                    (Improved.candidate warm 1%nat 2%nat)
                  - Improved.best_covered warm)
                 (Improved.current_temp warm)
                 (advance (Improved.gen warm))).2).
Proof.
  apply (proj1 (score_delta_against_best path3 step_exp rate 10 150)
           0 warm 1%nat 2%nat (advance (Improved.gen warm))).
  - vm_compute. reflexivity.
  - vm_compute. reflexivity.
Defined.

(** *** C2 *)

(** An improving move that is not accepted, twice over.

    First, on [path3] with the isolated node as the cover and an initial
    temperature of 0: the move proposed is node 1 out, node 2 in; the
    candidate covers one edge more than [best_covered]; and the pass leaves
    [current_solution] where it was.

    Second, with the default parameters (initial temperature 1500, cooling
    rate 0.9, 1500 iterations, early stop at 150) on [stars] with two nodes
    allowed. The sample is nodes 1 and 2, covering two edges. In each of the
    first 1145 passes node 1 is drawn to leave for node 3, a candidate that
    covers one edge; the draw 1 - 2^-14 is above [exp(-1 / temperature)] for
    every temperature up to 1500, and the move is rejected. After these
    passes the temperature has underflowed to 0. In pass 1145 node 2 is
    drawn to leave for node 3: the candidate covers three edges, one more
    than [best_covered], and is rejected. The run returns the sample. *)
Lemma improving_move_rejected_at_zero_temperature :
  (Improved.propose path3 cold
   = Ok (Some (1%nat, 2%nat), advance (Improved.gen cold))
   ∧ count_covered_edges path3 (Improved.candidate cold 1%nat 2%nat)
     - Improved.best_covered cold = 1
   ∧ Improved.current_temp cold = 0%float
   ∧ match Improved.body path3 step_exp rate 10 150 0 cold with
     | Ok (Next, st') =>
         Improved.current_solution st' = Improved.current_solution cold
         ∧ elements (Improved.current st') = [1%nat]
     | _ => False
     end)
  ∧ match Improved.after stars step_exp 2 1500%float rate 1500 150 1145
            (turning_tape 2292) with
    | Ok st =>
        Improved.current_temp st = 0%float
        ∧ elements (Improved.current st) = [2; 1]%nat
        ∧ Improved.best_covered st = 2
        ∧ Improved.propose stars st
          = Ok (Some (2%nat, 3%nat), advance (Improved.gen st))
        ∧ count_covered_edges stars (Improved.candidate st 2%nat 3%nat) = 3
        ∧ match Improved.body stars step_exp rate 1500 150 1145 st with
          | Ok (Next, st') =>
              Improved.current_solution st' = Improved.current_solution st
              ∧ elements (Improved.current st') = [2; 1]%nat
              ∧ Improved.best_covered st' = 2
          | _ => False
          end
    | Raise _ => False
    end
  ∧ Improved.improved_simulated_annealing_VertexCover
      stars step_exp 2 1500%float rate 1500 150 (turning_tape 2292)
    = Ok ([2; 1]%nat, 2).
Proof. vm_compute. repeat split; reflexivity. Qed.

Lemma acceptance_rule_witness :
  ∃ st',
    Improved.body path3 step_exp rate 10 150 0 warm = Ok (Next, st')
    ∧ Improved.current_solution st' = next (Improved.mem warm)
    ∧ Improved.current st' = Improved.candidate warm 1%nat 2%nat.
Proof.
  destruct (proj1 (acceptance_rule path3 step_exp rate 10 150)
              0 warm 1%nat 2%nat (advance (Improved.gen warm)))
    as (st' & Hb & Hpos & _).
  - vm_compute. reflexivity.
  - vm_compute. reflexivity.
  - exists st'. split; [exact Hb|]. apply Hpos.
    + vm_compute. reflexivity.
    + vm_compute. reflexivity.
Defined.

(** *** C3 *)

Lemma cardinality_invariant_witness :
  (∀ k, (k ≤ Z.to_nat 10)%nat →
        ∃ st, Improved.after cycle4 step_exp 2 1500%float rate 10 150 k
                (tape 0 0.5%float) = Ok st
              ∧ size (Improved.current st) = Z.to_nat 2)
  ∧ ∃ cover c, improved_run cycle4 2 1500%float 10 = Ok (cover, c)
               ∧ length cover = Z.to_nat 2 ∧ NoDup cover.
Proof.
  destruct (cardinality_invariant cycle4 step_exp 2 1500%float rate 10 150)
    with (g0 := tape 0 0.5%float) as (Hprefix & _ & Hrun).
  - apply (bool_decide_unpack _). vm_compute. exact I.
  - simpl. lia.
  - split; [exact Hprefix | exact Hrun].
Defined.

(** *** C4 *)

Lemma best_covered_monotone_witness :
  ∃ st', Improved.loop path3 step_exp rate 10 150 3 0 warm = Ok st'
         ∧ Improved.best_covered warm ≤ Improved.best_covered st'.
Proof.
  eexists. split.
  - vm_compute. reflexivity.
  - apply (proj1 (proj2 (best_covered_monotone path3 step_exp rate 10 150))
             3%nat 0 warm).
    vm_compute. reflexivity.
Defined.

(** *** C5 *)

(** A pass without a move does not cool. On [single] with its node as the
    cover there is no candidate; the pass goes on to the next index with
    the temperature still 1500, where the cooling law at index 0 gives
    1350. *)
Lemma continue_skips_cooling :
  Improved.node_in_candidates single full = []
  ∧ Improved.cool rate 10 0 (Improved.current_temp full) = 1350%float
  ∧ match Improved.body single step_exp rate 10 150 0 full with
    | Ok (Next, st') =>
        Improved.current_temp st' = 1500%float
        ∧ PrimFloat.eqb (Improved.current_temp st')
            (Improved.cool rate 10 0 (Improved.current_temp full)) = false
    | _ => False
    end.
Proof. vm_compute. repeat split; reflexivity. Qed.

Lemma no_move_pass_witness :
  ∃ st', Improved.body single step_exp rate 10 150 0 full = Ok (Next, st')
         ∧ Improved.no_improvement_iterations st'
           = Improved.no_improvement_iterations full
         ∧ Improved.current_temp st' = Improved.current_temp full.
Proof.
  destruct (no_move_pass single step_exp rate 10 150 0 full 0%nat)
    as (st' & Hb & _ & _ & _ & _ & _ & Hni & Ht).
  - vm_compute. reflexivity.
  - intros He. apply (f_equal size) in He. vm_compute in He. discriminate.
  - intros v Hv. apply list_elem_of_singleton in Hv as ->.
    apply (bool_decide_unpack _). vm_compute. exact I.
  - exists st'. split; [exact Hb|]. split; [exact Hni | exact Ht].
Defined.

(** *** C6 *)

Lemma stagnation_counter_witness :
  ∃ st', Improved.body path3 step_exp rate 10 150 0 warm = Ok (Next, st')
         ∧ Improved.no_improvement_iterations st' = 0.
Proof.
  destruct (proj2 (proj2 (stagnation_counter path3 step_exp rate 10 150))
              0 warm 1%nat 2%nat (advance (Improved.gen warm)))
    as (st' & Hb & Hni).
  - vm_compute. reflexivity.
  - vm_compute. reflexivity.
  - exists st'. split; [exact Hb|]. rewrite Hni. vm_compute. reflexivity.
Defined.

(** *** C7 *)

Lemma move_generator_witness :
  2%nat ∈ nodes path3
  ∧ (2%nat ∉ Improved.current warm)
  ∧ ∀ v, v ∈ nodes path3 → v ∉ Improved.current warm →
         (degree path3 v ≤ degree path3 2%nat)%nat.
Proof.
  destruct (proj2 (move_generator path3 warm) 1%nat 2%nat
              (advance (Improved.gen warm)))
    as (_ & Hnode & Hout & Hmax & _).
  - vm_compute. reflexivity.
  - split; [exact Hnode|]. split; [exact Hout | exact Hmax].
Defined.

(** *** C8 *)

(** Parameters the description calls invalid, and the results the run
    returns for them: an initial temperature of 0, no iteration at all, a
    negative number of iterations, an empty cover with no iteration. *)
Lemma invalid_parameters_return_a_result :
  improved_run path3 1 0%float 10 = Ok ([1%nat], 0)
  ∧ improved_run cycle4 2 1500%float 0 = Ok ([2; 1]%nat, 3)
  ∧ improved_run cycle4 2 1500%float (-3) = Ok ([2; 1]%nat, 3)
  ∧ improved_run path3 0 1500%float 0 = Ok ([], 0).
Proof. vm_compute. repeat split; reflexivity. Qed.

Lemma parameter_failures_witness :
  Improved.init single 2 1500%float (tape 0 0.5%float) = Raise ValueError
  ∧ improved_run single 2 1500%float 10 = Raise ValueError.
Proof.
  apply (proj1 (parameter_failures single step_exp 2 1500%float rate 10 150
                  (tape 0 0.5%float))).
  simpl. lia.
Defined.

(** *** C9 *)

Lemma zero_iterations_witness :
  ∃ smp g1,
    sample (tape 0 0.5%float) (nodes cycle4) 2 = Ok (smp, g1)
    ∧ length smp = Z.to_nat 2
    ∧ improved_run cycle4 2 1500%float 0
      = Ok (elements (list_to_set smp : gset nat),
            count_covered_edges cycle4 (list_to_set smp)).
Proof.
  apply (zero_iterations cycle4 step_exp 2 1500%float rate 0 150
           (tape 0 0.5%float)).
  - reflexivity.
  - simpl. lia.
Defined.

(** *** C10 *)

Lemma returned_pair_consistent_witness :
  4 = count_covered_edges cycle4 (list_to_set [3; 1]%nat).
Proof.
  apply (returned_pair_consistent cycle4 step_exp 2 1500%float rate 10 150
           (tape 0 0.5%float)).
  vm_compute. reflexivity.
Defined.

End Runs.

(** * Further properties *)

(** ** Filters *)

Section FilterFacts.
Context {A : Type} (P Q : A → Prop).
Context `{!∀ x, Decision (P x)} `{!∀ x, Decision (Q x)}.

Lemma length_filter_mono (l : list A) :
  (∀ x, x ∈ l → P x → Q x) →
  (length (filter P l) ≤ length (filter Q l))%nat.
Proof.
  induction l as [|x l IHl]; intros Himp; [done|].
  assert (Hl : (length (filter P l) ≤ length (filter Q l))%nat).
  { apply IHl. intros y Hy. apply Himp. by apply elem_of_cons; right. }
  rewrite !filter_cons.
  destruct (decide (P x)) as [HP|HP].
  - rewrite decide_True by (apply Himp; [apply elem_of_cons; by left|done]).
    simpl. lia.
  - destruct (decide (Q x)); simpl; lia.
Qed.

Lemma length_filter_all (l : list A) :
  length (filter P l) = length l ↔ ∀ x, x ∈ l → P x.
Proof.
  induction l as [|x l IHl].
  - split; [intros _ y Hy; by apply elem_of_nil in Hy | done].
  - rewrite filter_cons. pose proof (length_filter P l) as Hle.
    destruct (decide (P x)) as [HP|HP]; simpl.
    + split.
      * intros Hlen y [->|Hy]%elem_of_cons; [done|].
        apply IHl; [lia | done].
      * intros Hall. f_equal. apply IHl. intros y Hy. apply Hall.
        by apply elem_of_cons; right.
    + split; [lia|]. intros Hall. destruct HP. apply Hall.
      by apply elem_of_cons; left.
Qed.

Lemma length_filter_none (l : list A) :
  (∀ x, x ∈ l → ¬ P x) → length (filter P l) = 0%nat.
Proof.
  induction l as [|x l IHl]; intros Hnone; [done|].
  rewrite filter_cons, decide_False
    by (apply Hnone, elem_of_cons; by left).
  apply IHl. intros y Hy. apply Hnone. by apply elem_of_cons; right.
Qed.

Lemma length_filter_or (l : list A) :
  (length (filter (λ x, P x ∨ Q x) l)
   ≤ length (filter P l) + length (filter Q l))%nat.
Proof.
  induction l as [|x l IHl]; [done|].
  rewrite !filter_cons.
  destruct (decide (P x)), (decide (Q x)), (decide (P x ∨ Q x));
    simpl; try lia; tauto.
Qed.

End FilterFacts.

(** ** The score *)

Section CountFacts.
Context `{Countable V}.
Variable G : Graph V.
Implicit Types (X Y : gset V).

Lemma count_covered_edges_range X :
  0 ≤ count_covered_edges G X ≤ Z.of_nat (size (edge_set G)).
Proof.
  unfold count_covered_edges. split; [lia|].
  apply inj_le. apply length_filter.
Qed.

Lemma count_covered_edges_subseteq X Y :
  X ⊆ Y → count_covered_edges G X ≤ count_covered_edges G Y.
Proof.
  intros Hsub. unfold count_covered_edges. apply inj_le.
  apply length_filter_mono. intros e _ [He|He]; [left|right]; by apply Hsub.
Qed.

Lemma count_covered_edges_full X :
  count_covered_edges G X = Z.of_nat (size (edge_set G))
  ↔ ∀ u v, (u, v) ∈ edges G → u ∈ X ∨ v ∈ X.
Proof.
  unfold count_covered_edges, size, set_size. simpl.
  rewrite Nat2Z.inj_iff, length_filter_all. split.
  - intros Hall u v Huv. apply (Hall (u, v)).
    by apply elem_of_elements, elem_of_list_to_set.
  - intros Hall [u v] Huv. apply Hall.
    by apply elem_of_elements, elem_of_list_to_set in Huv.
Qed.

(** X1. The score as a measure of covers. It lies between [0] and the
    number of distinct edges; a larger set scores at least as much; the
    empty set scores [0]; the score of a union is at most the sum of the
    scores; and a set scores the number of edges exactly when it is a vertex
    cover, that is when every edge has an endpoint in it. *)
Theorem count_covered_edges_measure :
  (∀ X, 0 ≤ count_covered_edges G X ≤ Z.of_nat (size (edge_set G)))
  ∧ (∀ X Y, X ⊆ Y → count_covered_edges G X ≤ count_covered_edges G Y)
  ∧ count_covered_edges G ∅ = 0
  ∧ (∀ X Y, count_covered_edges G (X ∪ Y)
            ≤ count_covered_edges G X + count_covered_edges G Y)
  ∧ (∀ X, count_covered_edges G X = Z.of_nat (size (edge_set G))
          ↔ ∀ u v, (u, v) ∈ edges G → u ∈ X ∨ v ∈ X).
Proof.
  split; [apply count_covered_edges_range|].
  split; [apply count_covered_edges_subseteq|].
  split; [|split].
  - unfold count_covered_edges. rewrite length_filter_none; [done|].
    intros e _ [Hx|Hx]; by apply not_elem_of_empty in Hx.
  - intros X Y. unfold count_covered_edges. rewrite <- Nat2Z.inj_add.
    apply inj_le. etrans; [|apply length_filter_or].
    apply length_filter_mono. intros e _ [He|He].
    + apply elem_of_union in He as [?|?]; [left; by left | right; by left].
    + apply elem_of_union in He as [?|?]; [left; by right | right; by right].
  - apply count_covered_edges_full.
Qed.

End CountFacts.

(** ** The improved variant: the walk *)

Section ImprovedWalk.
Context `{Countable V}.
Variable G : Graph V.
Variable np_exp : float → float.
Variables (Max_Node : Z) (initial_temp cooling_rate : float).
Variables (max_iteration early_stop : Z).

Import Improved.

Local Abbreviation init := (init G Max_Node initial_temp).
Local Abbreviation propose := (propose G).
Local Abbreviation body := (body G np_exp cooling_rate max_iteration early_stop).
Local Abbreviation pass := (pass G np_exp cooling_rate max_iteration early_stop).
Local Abbreviation loop := (loop G np_exp cooling_rate max_iteration early_stop).
Local Abbreviation after :=
  (after G np_exp Max_Node initial_temp cooling_rate max_iteration early_stop).
Local Abbreviation run :=
  (improved_simulated_annealing_VertexCover
     G np_exp Max_Node initial_temp cooling_rate max_iteration early_stop).
Local Abbreviation count := (count_covered_edges G).
Local Abbreviation steady := (steady G early_stop).
Local Abbreviation first_sample g0 :=
  (list_to_set (sample_pool g0 (nodes G) (Z.to_nat Max_Node)).1 : gset V).

Implicit Types (st : state V) (g : rng) (i : Z).

Lemma pass_steady c0 i st f st' : steady c0 st → pass i st f st' → steady c0 st'.
Proof.
  intros (L & [Wc Wb] & Hcb & Hc0 & Hni) P.
  split; [by eapply pass_linked|].
  destruct L as (Hcur & Hbest & Hcov).
  destruct P as [|g1 ? ?|o n g1 m3 Hgo Hp Hnext Hnew Hold]; [done|done|].
  destruct (propose_members G _ _ _ _ Hp) as (Hout & Hn & Hin).
  destruct (update_fields cooling_rate max_iteration i st m3 (next (mem st))
              new_covered decision.1 decision.2)
    as (Hm & _ & _ & Hc & Hb & Hbc & Hn').
  assert (Hcand : ∀ v, v ∈ candidate st o n → v ∈ nodes G).
  { unfold candidate.
    intros v [->%elem_of_singleton|[Hv _]%elem_of_difference]%elem_of_union;
      [done | by apply Wc]. }
  unfold Improved.within_nodes, Improved.ranked, current, best.
  rewrite Hm, Hc, Hb, Hbc, Hn'.
  destruct decision.1; simpl.
  - rewrite Hnew. case_bool_decide as Hlt.
    + rewrite Hnew. repeat split; auto; fold new_covered; lia.
    + rewrite (Hold (best_solution st)) by lia.
      repeat split; auto; fold new_covered; lia.
  - rewrite !Hold by lia. repeat split; auto; lia.
Qed.

Lemma after_steady g0 k st :
  after k g0 = Ok st → steady (count (first_sample g0)) st.
Proof.
  unfold Improved.after. intros (st0 & Hi & Hl)%bind_Ok.
  destruct (decide (0 ≤ Max_Node ≤ Z.of_nat (length (nodes G)))) as [Hk|Hk].
  2: { by rewrite (init_Raise G Max_Node initial_temp g0 Hk) in Hi. }
  destruct (init_Ok G Max_Node initial_temp g0 Hk)
    as (st0' & Hi' & L & Hc & Hb & Hbc & _ & Hni).
  rewrite Hi in Hi'. injection Hi' as <-.
  eapply (loop_invariant G np_exp cooling_rate max_iteration early_stop
            (steady (count (first_sample g0)))); [| |exact Hl].
  { intros j s f s' S P%body_pass. by eapply pass_steady. }
  assert (Hsub : ∀ v, v ∈ first_sample g0 → v ∈ nodes G).
  { intros v Hv%elem_of_list_to_set.
    eapply elem_of_submseteq; [exact Hv | apply sample_pool_sublist]. }
  split; [exact L|]. split.
  - split; intros v; [rewrite Hc | rewrite Hb]; apply Hsub.
  - unfold Improved.ranked. rewrite Hc, Hbc, Hni. lia.
Qed.

(** The run, from a state reached after all its passes. *)
Lemma run_Ok_after g0 cover c :
  run g0 = Ok (cover, c) →
  ∃ st, after (Z.to_nat max_iteration) g0 = Ok st
        ∧ cover = elements (best st) ∧ c = best_covered st.
Proof.
  unfold improved_simulated_annealing_VertexCover.
  intros (st & Ha & Hr)%bind_Ok. injection Hr as <- <-. by exists st.
Qed.

(** X2. What the improved search returns. Whenever it returns [(cover, c)],
    [c] is at least the score of the initial sample and at most the number
    of distinct edges, and every vertex of [cover] is a node of the
    graph. *)
Theorem improved_result_quality g0 cover c :
  improved_simulated_annealing_VertexCover
    G np_exp Max_Node initial_temp cooling_rate max_iteration early_stop g0
  = Ok (cover, c) →
  count_covered_edges G
    (list_to_set (sample_pool g0 (nodes G) (Z.to_nat Max_Node)).1)
  ≤ c ≤ Z.of_nat (size (edge_set G))
  ∧ ∀ v, v ∈ cover → v ∈ nodes G.
Proof.
  intros (st & Ha & -> & ->)%run_Ok_after.
  destruct (after_steady _ _ _ Ha)
    as ((_ & _ & Hcov) & [_ Wb] & _ & Hc0 & _).
  split; [split; [exact Hc0|]|].
  - rewrite Hcov. apply count_covered_edges_range.
  - intros v Hv%elem_of_elements. by apply Wb.
Qed.

(** X3. The walk. In every state the improved search reaches, the current
    solution scores no more than [best_covered], it is made of nodes of the
    graph, and the stagnation counter lies between [0] and [early_stop]
    ([0] when [early_stop] is negative). *)
Theorem improved_walk_invariants g0 k st :
  Improved.after
    G np_exp Max_Node initial_temp cooling_rate max_iteration early_stop k g0
  = Ok st →
  count_covered_edges G (Improved.current st) ≤ Improved.best_covered st
  ∧ (∀ v, v ∈ Improved.current st → v ∈ nodes G)
  ∧ 0 ≤ Improved.no_improvement_iterations st ≤ Z.max 0 early_stop.
Proof.
  intros Ha.
  destruct (after_steady _ _ _ Ha) as (_ & [Wc _] & Hcb & _ & Hni).
  auto.
Qed.

(** X4. The exceptions of the improved search. It raises only in two
    ways: [ValueError], exactly when [Max_Node] is negative or larger than
    the number of nodes, and [IndexError], exactly when [Max_Node] is [0]
    and a first pass is made ([max_iteration] and [early_stop] positive).
    It raises neither [KeyError] nor [ZeroDivisionError]. *)
Theorem improved_exceptions g0 e :
  improved_simulated_annealing_VertexCover
    G np_exp Max_Node initial_temp cooling_rate max_iteration early_stop g0
  = Raise e ↔
  (e = ValueError ∧ ¬ (0 ≤ Max_Node ≤ Z.of_nat (length (nodes G))))
  ∨ (e = IndexError ∧ Max_Node = 0 ∧ 0 < max_iteration ∧ 0 < early_stop).
Proof.
  unfold improved_simulated_annealing_VertexCover, Improved.after.
  destruct (decide (0 ≤ Max_Node ≤ Z.of_nat (length (nodes G)))) as [Hk|Hk].
  2: { rewrite (init_Raise G Max_Node initial_temp g0 Hk). simpl. split.
       - intros [= <-]. by left.
       - intros [[-> _]|(_ & ? & _)]; [done | lia]. }
  destruct (decide (0 < Max_Node)) as [Hpos|Hzero].
  { destruct (after_Ok G np_exp Max_Node initial_temp cooling_rate
                max_iteration early_stop g0 (Z.to_nat max_iteration)
                ltac:(lia)) as (_ & st & Ha & _).
    unfold Improved.after in Ha. rewrite Ha. simpl. split; [done|].
    intros [[_ ?]|(_ & ? & _)]; [done | lia]. }
  assert (Max_Node = 0) as Hk0 by lia.
  destruct (init_Ok G Max_Node initial_temp g0 Hk)
    as (st0 & Hi & _ & Hc & _ & _ & _ & Hni).
  rewrite Hk0 in Hc. simpl in Hc. rewrite Hi. simpl.
  destruct (Z.to_nat max_iteration) as [|n] eqn:Hn; simpl.
  { split; [done|]. intros [[_ ?]|(_ & _ & ? & _)]; [done | lia]. }
  unfold Improved.body. case_decide as Hstop; simpl.
  { split; [done|]. intros [[_ ?]|(_ & _ & _ & ?)]; [done | lia]. }
  rewrite (propose_empty G st0 Hc). simpl. split.
  - intros [= <-]. right. repeat split; lia.
  - intros [[_ ?]|(-> & _)]; done.
Qed.

(** X5. An early-stop budget that is not positive stops the loop before
    its first pass: with [Max_Node] in range the search returns the initial
    sample and its score, whatever the other parameters, and also when the
    sample is empty. *)
Theorem improved_no_budget g0 :
  early_stop ≤ 0 →
  0 ≤ Max_Node ≤ Z.of_nat (length (nodes G)) →
  improved_simulated_annealing_VertexCover
    G np_exp Max_Node initial_temp cooling_rate max_iteration early_stop g0
  = Ok (elements (first_sample g0),
        count_covered_edges G (first_sample g0)).
Proof.
  intros Hstop Hk.
  destruct (init_Ok G Max_Node initial_temp g0 Hk)
    as (st0 & Hi & _ & _ & Hb & Hbc & _ & Hni).
  unfold improved_simulated_annealing_VertexCover, Improved.after.
  rewrite Hi. simpl.
  assert (Hl : loop (Z.to_nat max_iteration) 0 st0 = Ok st0).
  { destruct (Z.to_nat max_iteration); simpl; [done|].
    unfold Improved.body. by rewrite decide_True by lia. }
  rewrite Hl. simpl. unfold list_of_set. fold (best st0). by rewrite Hb, Hbc.
Qed.

(** X6. The full cover. On a graph whose nodes are distinct and whose
    edges each have an endpoint among the nodes, with [Max_Node] the number
    of nodes (at least one), the improved search returns all the nodes, in
    some order, and the number of distinct edges. *)
Theorem improved_full_cover g0 :
  NoDup (nodes G) →
  (∀ u v, (u, v) ∈ edges G → u ∈ nodes G ∨ v ∈ nodes G) →
  0 < Max_Node →
  Max_Node = Z.of_nat (length (nodes G)) →
  ∃ cover,
    improved_simulated_annealing_VertexCover
      G np_exp Max_Node initial_temp cooling_rate max_iteration early_stop g0
    = Ok (cover, Z.of_nat (size (edge_set G)))
    ∧ cover ≡ₚ nodes G.
Proof.
  intros Hnd Hedges Hpos HN.
  destruct (after_Ok G np_exp Max_Node initial_temp cooling_rate
              max_iteration early_stop g0 (Z.to_nat max_iteration)
              ltac:(lia)) as (_ & st & Ha & L & [_ Hs]).
  destruct (after_steady _ _ _ Ha) as (_ & [_ Wb] & _).
  destruct L as (_ & _ & Hcov).
  assert (Hsmp : (sample_pool g0 (nodes G) (Z.to_nat Max_Node)).1 ≡ₚ nodes G).
  { apply submseteq_length_Permutation; [apply sample_pool_sublist|].
    rewrite sample_pool_length; lia. }
  assert (Hbest : best st = list_to_set (nodes G)).
  { apply set_subseteq_size_eq.
    - intros v Hv. by apply elem_of_list_to_set, Wb.
    - rewrite Hs. by rewrite Hsmp. }
  exists (elements (best st)). split.
  - unfold improved_simulated_annealing_VertexCover.
    rewrite Ha. simpl. unfold list_of_set. fold (best st).
    do 2 f_equal. rewrite Hcov, Hbest. apply count_covered_edges_full.
    intros u v Huv. rewrite !elem_of_list_to_set. by apply Hedges.
  - rewrite Hbest. apply NoDup_Permutation; [apply NoDup_elements|done|].
    intros v. by rewrite elem_of_elements, elem_of_list_to_set.
Qed.

End ImprovedWalk.

(** ** The baseline variant: the walk *)

Section BaselineWalk.
Context `{Countable V}.
Variable G : Graph V.
Variable np_exp : float → float.
Variables (Max_Node : Z) (initial_temp cooling_rate : float).
Variable max_iteration : Z.

Import Baseline.

Local Abbreviation init := (init G Max_Node initial_temp).
Local Abbreviation propose := (propose G).
Local Abbreviation accept := (accept np_exp).
Local Abbreviation update := (update cooling_rate).
Local Abbreviation body := (body G np_exp cooling_rate).
Local Abbreviation loop := (loop G np_exp cooling_rate).
Local Abbreviation after :=
  (after G np_exp Max_Node initial_temp cooling_rate).
Local Abbreviation run :=
  (simulated_annealing_VertexCover
     G np_exp Max_Node initial_temp cooling_rate max_iteration).
Local Abbreviation count := (count_covered_edges G).
Local Abbreviation steady := (steady G).
Local Abbreviation first_sample g0 :=
  (list_to_set (sample_pool g0 (nodes G) (Z.to_nat Max_Node)).1 : gset V).

Implicit Types (st : state V) (g : rng).

Lemma baseline_init_Ok g0 :
  0 ≤ Max_Node ≤ Z.of_nat (length (nodes G)) →
  ∃ st0, init g0 = Ok st0
         ∧ steady (size (first_sample g0)) (count (first_sample g0)) st0
         ∧ current st0 = first_sample g0
         ∧ best st0 = first_sample g0
         ∧ best_covered st0 = count (first_sample g0)
         ∧ current_temp st0 = initial_temp.
Proof.
  intros Hk. unfold Baseline.init, sample. rewrite decide_True by done.
  simpl.
  assert (Hsub : ∀ v, v ∈ first_sample g0 → v ∈ nodes G).
  { intros v Hv%elem_of_list_to_set.
    eapply elem_of_submseteq; [exact Hv | apply sample_pool_sublist]. }
  destruct (sample_pool g0 (nodes G) (Z.to_nat Max_Node)) as [smp g1].
  simpl in *. eexists; split; [done|].
  unfold Baseline.steady, current, best, deref; simpl.
  rewrite (lookup_total_insert_ne _ 1%nat 0%nat) by lia.
  rewrite !lookup_total_insert_eq. repeat split; auto; lia.
Qed.

Lemma baseline_init_Raise g0 :
  ¬ (0 ≤ Max_Node ≤ Z.of_nat (length (nodes G))) →
  init g0 = Raise ValueError.
Proof.
  intros Hk. unfold Baseline.init, sample. by rewrite decide_False.
Qed.

Lemma baseline_update_best st m new_solution c accepted g :
  best_solution (update st m new_solution c accepted g)
  = (if accepted && bool_decide (best_covered st < c)
     then new_solution else best_solution st).
Proof.
  unfold Baseline.update. destruct accepted; simpl; [|done].
  case_decide; [rewrite bool_decide_eq_true_2 by done
               |rewrite bool_decide_eq_false_2 by done]; done.
Qed.

Lemma baseline_body_steady k c0 st st' :
  steady k c0 st → body st = Ok st' → steady k c0 st'.
Proof.
  intros ((Hcur & Hbest & Hcov) & [Hk Hkb] & [Wc Wb] & Hcb & Hc0) Hb.
  destruct (propose st) as [[[o n] g1]|e] eqn:Hp.
  2: { unfold Baseline.body in Hb. by rewrite Hp in Hb. }
  destruct (baseline_body_move G np_exp cooling_rate st o n g1 Hp)
    as (m3 & Hnext & Hnew & Hold & Hb').
  rewrite Hb' in Hb. apply bind_Ok in Hb as ([accepted g2] & _ & Hu).
  injection Hu as <-.
  destruct (baseline_propose_members G _ _ _ _ Hp) as (Hout & Hn & Hin).
  assert (Hcand : ∀ v, v ∈ candidate st o n → v ∈ nodes G).
  { unfold candidate.
    intros v [->%elem_of_singleton|[Hv _]%elem_of_difference]%elem_of_union;
      [done | by apply Wc]. }
  assert (Hsize : size (candidate st o n) = k)
    by (unfold candidate; by rewrite size_swap).
  destruct (baseline_update_fields cooling_rate st m3 (next (mem st))
              (count (candidate st o n)) accepted g2) as (Hm & Hc & Hbc).
  pose proof (baseline_update_best st m3 (next (mem st))
                (count (candidate st o n)) accepted g2) as Hbs.
  unfold Baseline.steady, current, best.
  rewrite Hm, Hc, Hbs, Hbc, Hnext.
  destruct accepted; simpl.
  - rewrite Hnew. case_bool_decide as Hlt.
    + rewrite Hnew. repeat split; auto; lia.
    + rewrite (Hold (best_solution st)) by lia. repeat split; auto; lia.
  - rewrite !Hold by lia. repeat split; auto; lia.
Qed.

Lemma baseline_loop_steady k c0 n : ∀ st st',
  steady k c0 st → loop n st = Ok st' → steady k c0 st'.
Proof.
  induction n as [|n IHn]; intros st st' S Hl; simpl in Hl.
  - by injection Hl as <-.
  - apply bind_Ok in Hl as (st1 & Hb & Hl).
    eapply IHn; [|exact Hl]. by eapply baseline_body_steady.
Qed.

Lemma baseline_after_steady g0 k st :
  after k g0 = Ok st →
  0 ≤ Max_Node ≤ Z.of_nat (length (nodes G))
  ∧ steady (size (first_sample g0)) (count (first_sample g0)) st.
Proof.
  unfold Baseline.after. intros (st0 & Hi & Hl)%bind_Ok.
  destruct (decide (0 ≤ Max_Node ≤ Z.of_nat (length (nodes G)))) as [Hk|Hk].
  2: { by rewrite (baseline_init_Raise g0 Hk) in Hi. }
  split; [exact Hk|].
  destruct (baseline_init_Ok g0 Hk) as (st0' & Hi' & S & _).
  rewrite Hi in Hi'. injection Hi' as <-. by eapply baseline_loop_steady.
Qed.

Lemma baseline_run_Ok_after g0 cover c :
  run g0 = Ok (cover, c) →
  ∃ st, after (Z.to_nat max_iteration) g0 = Ok st
        ∧ cover = elements (best st) ∧ c = best_covered st.
Proof.
  unfold simulated_annealing_VertexCover, Baseline.after.
  intros (st0 & Hi & Hr)%bind_Ok. apply bind_Ok in Hr as (st & Hl & Hr).
  injection Hr as <- <-. exists st. rewrite Hi. simpl. by rewrite Hl.
Qed.

Lemma choice_Raise {A} g (seq : list A) e :
  choice g seq = Raise e → e = IndexError.
Proof.
  unfold choice. destruct (randbelow g (length seq)) as [j g'].
  destruct (seq !! j); [done|]. by intros [= <-].
Qed.

(** What a pass of the baseline can raise. *)
Lemma baseline_body_Raise st e :
  body st = Raise e → e = IndexError ∨ e = ZeroDivisionError.
Proof.
  intros Hb.
  destruct (propose st) as [[[o n] g1]|e'] eqn:Hp.
  - destruct (baseline_body_move G np_exp cooling_rate st o n g1 Hp)
      as (m3 & _ & _ & _ & Hb').
    rewrite Hb' in Hb. rewrite baseline_accept_cases in Hb.
    case_bool_decide; [done|].
    destruct (PrimFloat.eqb (current_temp st) 0); [|done].
    injection Hb as <-. by right.
  - unfold Baseline.body in Hb. rewrite Hp in Hb. injection Hb as <-.
    left. unfold Baseline.propose in Hp.
    destruct (choice (gen st) _) as [[o g1]|e1] eqn:Ho; simpl in Hp.
    + destruct (choice g1 _) as [[n g2]|e2] eqn:Hn; simpl in Hp; [done|].
      injection Hp as <-. by eapply choice_Raise.
    + injection Hp as <-. by eapply choice_Raise.
Qed.

Lemma baseline_loop_Raise n : ∀ st e,
  loop n st = Raise e → e = IndexError ∨ e = ZeroDivisionError.
Proof.
  induction n as [|n IHn]; intros st e Hl; simpl in Hl; [done|].
  destruct (body st) as [st1|e1] eqn:Hb; simpl in Hl.
  - by eapply IHn.
  - injection Hl as <-. by eapply baseline_body_Raise.
Qed.

(** With no node outside the current solution, the baseline has no move to
    draw: one of its two [random.choice] calls is on an empty list. *)
Lemma baseline_propose_full st :
  (∀ v, v ∈ nodes G → v ∈ current st) → propose st = Raise IndexError.
Proof.
  intros Hall. unfold Baseline.propose.
  destruct (choice (gen st) _) as [[o g1]|e1] eqn:Ho; simpl.
  - assert (Hnil : filter (λ node, node ∉ current st) (nodes G) = []).
    { destruct (filter _ _) as [|c cs] eqn:Hc; [done|].
      assert (Hin : c ∈ filter (λ node, node ∉ current st) (nodes G))
        by (rewrite Hc; apply elem_of_cons; by left).
      apply list_elem_of_filter in Hin as [Hnot Hv]. by apply Hall in Hv. }
    by rewrite Hnil.
  - by rewrite (choice_Raise _ _ _ Ho).
Qed.

(** X7. What the baseline search returns. Whenever it returns
    [(cover, c)]: [c] is the score of [cover]; it is at least the score of
    the initial sample and at most the number of distinct edges; [cover] has
    no repeated vertex and holds only nodes of the graph; and on a graph
    whose nodes are distinct it has exactly [Max_Node] vertices. *)
Theorem baseline_result_quality g0 cover c :
  simulated_annealing_VertexCover
    G np_exp Max_Node initial_temp cooling_rate max_iteration g0
  = Ok (cover, c) →
  c = count_covered_edges G (list_to_set cover)
  ∧ count_covered_edges G
      (list_to_set (sample_pool g0 (nodes G) (Z.to_nat Max_Node)).1)
    ≤ c ≤ Z.of_nat (size (edge_set G))
  ∧ NoDup cover
  ∧ (∀ v, v ∈ cover → v ∈ nodes G)
  ∧ (NoDup (nodes G) → length cover = Z.to_nat Max_Node).
Proof.
  intros (st & Ha & -> & ->)%baseline_run_Ok_after.
  destruct (baseline_after_steady _ _ _ Ha)
    as (Hk & (_ & _ & Hcov) & [_ Hs] & [_ Wb] & _ & Hc0).
  rewrite list_to_set_elements_L.
  split; [exact Hcov|]. split; [split; [exact Hc0|]|].
  { rewrite Hcov. apply count_covered_edges_range. }
  split; [apply NoDup_elements|]. split.
  - intros v Hv%elem_of_elements. by apply Wb.
  - intros Hnd. change (size (best st) = Z.to_nat Max_Node). rewrite Hs.
    rewrite size_list_to_set by by apply sample_pool_NoDup.
    apply sample_pool_length. lia.
Qed.

(** X8. The baseline walk. In every state the baseline search reaches,
    [best_covered] is the score of the best solution, the current solution
    scores no more than that, it is made of nodes of the graph, and on a
    graph whose nodes are distinct it has exactly [Max_Node] members. *)
Theorem baseline_walk_invariants g0 k st :
  Baseline.after G np_exp Max_Node initial_temp cooling_rate k g0 = Ok st →
  Baseline.best_covered st = count_covered_edges G (Baseline.best st)
  ∧ count_covered_edges G (Baseline.current st) ≤ Baseline.best_covered st
  ∧ (∀ v, v ∈ Baseline.current st → v ∈ nodes G)
  ∧ (NoDup (nodes G) → size (Baseline.current st) = Z.to_nat Max_Node).
Proof.
  intros Ha.
  destruct (baseline_after_steady _ _ _ Ha)
    as (Hk & (_ & _ & Hcov) & [Hs _] & [Wc _] & Hcb & _).
  split; [exact Hcov|]. split; [exact Hcb|]. split; [exact Wc|].
  intros Hnd. rewrite Hs.
  rewrite size_list_to_set by by apply sample_pool_NoDup.
  apply sample_pool_length. lia.
Qed.


(** X10. No candidate, no baseline. With at least one iteration to run,
    the baseline search fails with [IndexError] when [Max_Node] is [0] (no
    member to take out) and when [Max_Node] is the number of nodes of a
    graph with distinct nodes (no node to put in). *)
Theorem baseline_no_candidate g0 :
  0 < max_iteration →
  Max_Node = 0
  ∨ (NoDup (nodes G) ∧ Max_Node = Z.of_nat (length (nodes G))) →
  simulated_annealing_VertexCover
    G np_exp Max_Node initial_temp cooling_rate max_iteration g0
  = Raise IndexError.
Proof.
  intros Hmax Hcase.
  assert (Hk : 0 ≤ Max_Node ≤ Z.of_nat (length (nodes G)))
    by (destruct Hcase as [->|[_ ->]]; lia).
  destruct (baseline_init_Ok g0 Hk) as (st0 & Hi & _ & Hc & _).
  unfold simulated_annealing_VertexCover. rewrite Hi. simpl.
  destruct (Z.to_nat max_iteration) as [|n] eqn:Hn; [lia|]. simpl.
  assert (Hp : propose st0 = Raise IndexError).
  { destruct Hcase as [Hz|[Hnd HN]].
    - unfold Baseline.propose, list_of_set. fold (current st0).
      rewrite Hc, Hz. simpl. by rewrite elements_empty.
    - apply baseline_propose_full. intros v Hv. rewrite Hc.
      apply elem_of_list_to_set.
      assert (Hperm : (sample_pool g0 (nodes G) (Z.to_nat Max_Node)).1
                      ≡ₚ nodes G).
      { apply submseteq_length_Permutation; [apply sample_pool_sublist|].
        rewrite sample_pool_length; lia. }
      by rewrite Hperm. }
  unfold Baseline.body. by rewrite Hp.
Qed.

(** X11. The zero temperature of the baseline. In a pass that has a move
    and finds the temperature equal to zero, a candidate that beats
    [best_covered] is accepted and becomes the best solution; any other
    candidate makes the pass fail with [ZeroDivisionError]. *)
Theorem baseline_zero_temperature st node_out node_in g1 :
  Baseline.propose G st = Ok (node_out, node_in, g1) →
  PrimFloat.eqb (Baseline.current_temp st) 0 = true →
  let new_covered :=
    count_covered_edges G (Baseline.candidate st node_out node_in) in
  (new_covered ≤ Baseline.best_covered st →
   Baseline.body G np_exp cooling_rate st = Raise ZeroDivisionError)
  ∧ (Baseline.best_covered st < new_covered →
     ∃ st', Baseline.body G np_exp cooling_rate st = Ok st'
            ∧ Baseline.best_covered st' = new_covered
            ∧ Baseline.best st' = Baseline.candidate st node_out node_in
            ∧ Baseline.current_solution st' = Baseline.best_solution st').
Proof.
  intros Hp Hzero new_covered.
  destruct (baseline_body_move G np_exp cooling_rate st node_out node_in g1 Hp)
    as (m3 & _ & Hnew & _ & Hb).
  rewrite Hb, baseline_accept_cases. fold new_covered. split.
  - intros Hle. rewrite bool_decide_eq_false_2 by lia. by rewrite Hzero.
  - intros Hlt. rewrite bool_decide_eq_true_2 by lia.
    exists (update st m3 (next (mem st)) new_covered true g1).
    split; [reflexivity|].
    destruct (baseline_update_fields cooling_rate st m3 (next (mem st))
                new_covered true g1) as (Hm & Hc & Hbc).
    pose proof (baseline_update_best st m3 (next (mem st))
                  new_covered true g1) as Hbs.
    rewrite bool_decide_eq_true_2 in Hbc, Hbs by lia.
    cbn [andb] in Hbc, Hbs. unfold best. rewrite Hm, Hbs, Hc, Hbc. by rewrite Hnew.
Qed.

(** X12. No iteration, baseline. With [max_iteration <= 0] and [Max_Node]
    in range the baseline search returns the initial sample and its score;
    this holds for [Max_Node = 0] and for [Max_Node] the number of nodes,
    where any iteration would fail. *)
Theorem baseline_zero_iterations g0 :
  max_iteration ≤ 0 →
  0 ≤ Max_Node ≤ Z.of_nat (length (nodes G)) →
  simulated_annealing_VertexCover
    G np_exp Max_Node initial_temp cooling_rate max_iteration g0
  = Ok (elements (first_sample g0),
        count_covered_edges G (first_sample g0)).
Proof.
  intros Hmax Hk.
  destruct (baseline_init_Ok g0 Hk) as (st0 & Hi & _ & _ & Hb & Hbc & _).
  unfold simulated_annealing_VertexCover. rewrite Hi. simpl.
  replace (Z.to_nat max_iteration) with O by lia. simpl.
  unfold list_of_set. fold (best st0). by rewrite Hb, Hbc.
Qed.

End BaselineWalk.

(** ** The improved variant: the cooling schedule *)

Section ImprovedSchedule.
Context `{Countable V}.
Variable G : Graph V.
Variable np_exp : float → float.
Variables (Max_Node : Z) (initial_temp cooling_rate : float).
Variables (max_iteration early_stop : Z).

Import Improved.

Local Abbreviation init := (init G Max_Node initial_temp).
Local Abbreviation propose := (propose G).
Local Abbreviation body := (body G np_exp cooling_rate max_iteration early_stop).
Local Abbreviation pass := (pass G np_exp cooling_rate max_iteration early_stop).
Local Abbreviation loop := (loop G np_exp cooling_rate max_iteration early_stop).
Local Abbreviation after :=
  (after G np_exp Max_Node initial_temp cooling_rate max_iteration early_stop).
Local Abbreviation schedule := (schedule initial_temp cooling_rate max_iteration).
Local Abbreviation frozen_from :=
  (frozen_from initial_temp cooling_rate max_iteration).
Local Abbreviation on_schedule :=
  (on_schedule G initial_temp cooling_rate max_iteration early_stop).

Implicit Types (st : state V) (g : rng).

(** A loop that has stopped stays stopped. *)
Lemma loop_stopped n i st :
  early_stop ≤ no_improvement_iterations st → loop n i st = Ok st.
Proof.
  intros Hstop. destruct n as [|n]; simpl; [done|].
  unfold Improved.body. by rewrite decide_True.
Qed.

(** The first [a] passes, then the rest. *)
Lemma loop_app a : ∀ b i st,
  loop (a + b) i st = st' ← loop a i st; loop b (i + Z.of_nat a) st'.
Proof.
  induction a as [|a IHa]; intros b i st.
  - simpl. by rewrite Z.add_0_r.
  - cbn [Nat.add Improved.loop].
    destruct (body i st) as [[f st1]|e] eqn:Hb; [|done].
    unfold mbind at 1 3. unfold result_bind at 1 3. destruct f.
    + rewrite IHa. by replace (i + 1 + Z.of_nat a) with (i + Z.of_nat (S a)) by lia.
    + apply body_pass in Hb. inversion Hb; subst.
      unfold mbind, result_bind. by rewrite loop_stopped.
Qed.

Lemma pass_on_schedule i st f st' :
  on_schedule i st → pass (Z.of_nat i) st f st' → on_schedule (S i) st'.
Proof.
  intros [L Hmode] P. split; [by eapply pass_linked|].
  destruct P as [Hstop|g1 Hgo Hp|o n g1 m3 Hgo Hp Hnext Hnew Hold].
  - by right; right.
  - right; left. by apply propose_Ok in Hp as (_ & _ & _ & Hcs).
  - left.
    destruct (update_fields cooling_rate max_iteration (Z.of_nat i) st m3
                (next (mem st)) new_covered decision.1 decision.2)
      as (_ & _ & -> & _).
    apply propose_Ok in Hp as (_ & _ & _ & _ & c & cs & Hcs & _).
    destruct Hmode as [->|[Hnil|Hstop]]; [done| |lia].
    by rewrite Hnil in Hcs.
Qed.

Lemma loop_on_schedule n : ∀ i st st',
  on_schedule i st → loop n (Z.of_nat i) st = Ok st' →
  on_schedule (i + n) st'.
Proof.
  induction n as [|n IHn]; intros i st st' S Hl; simpl in Hl.
  - injection Hl as <-. by rewrite Nat.add_0_r.
  - apply bind_Ok in Hl as ([f st1] & Hb & Hl). apply body_pass in Hb.
    pose proof (pass_on_schedule _ _ _ _ S Hb) as S1.
    replace (i + Datatypes.S n)%nat with (Datatypes.S i + n)%nat by lia.
    destruct f.
    + apply IHn with st1; [exact S1|].
      by replace (Z.of_nat (Datatypes.S i)) with (Z.of_nat i + 1) by lia.
    + injection Hl as <-. inversion Hb; subst.
      destruct S as [L _]. split; [exact L|]. by right; right.
Qed.

(** On a scheduled temperature that is not positive, a pass changes
    neither solution, nor the score, nor the stagnation counter. *)
Lemma pass_frozen i st f st' :
  on_schedule i st →
  PrimFloat.ltb 0 (schedule i) = false →
  pass (Z.of_nat i) st f st' → same_search st st'.
Proof.
  intros [(Hcur & Hbest & _) Hmode] Hcold P.
  destruct P as [Hstop|g1 Hgo Hp|o n g1 m3 Hgo Hp Hnext Hnew Hold];
    [done|done|].
  pose proof Hp as Hp'.
  apply propose_Ok in Hp' as (_ & _ & _ & _ & c & cs & Hcs & _).
  destruct Hmode as [Htemp|[Hnil|Hstop]];
    [|by rewrite Hnil in Hcs|lia].
  assert (Hrej : decision.1 = false).
  { unfold decision. rewrite improved_accept_cases, Htemp. by rewrite Hcold. }
  destruct (update_fields cooling_rate max_iteration (Z.of_nat i) st m3
              (next (mem st)) new_covered decision.1 decision.2)
    as (Hm & _ & _ & Hc & Hb & Hbc & Hni).
  unfold same_search, current, best. rewrite Hm, Hc, Hb, Hbc, Hni, Hrej. simpl.
  rewrite !Hold by lia. done.
Qed.

Lemma frozen_scan_spec z n : ∀ i j,
  frozen_scan cooling_rate max_iteration n i (schedule i) z = true →
  (z ≤ j)%nat → (i ≤ j < i + n)%nat →
  PrimFloat.ltb 0 (schedule j) = false.
Proof.
  induction n as [|n IHn]; intros i j Hscan Hz Hj; [lia|].
  simpl in Hscan. apply andb_true_iff in Hscan as [Hhere Hrest].
  destruct (decide (j = i)) as [->|Hne].
  - rewrite (proj2 (Nat.leb_le z i) Hz) in Hhere.
    by apply negb_true_iff in Hhere.
  - apply (IHn (S i)); [exact Hrest|exact Hz|lia].
Qed.

Lemma frozen_from_spec z i :
  frozen_from z = true →
  (z ≤ i < Z.to_nat max_iteration)%nat →
  PrimFloat.ltb 0 (schedule i) = false.
Proof.
  intros Hscan Hi.
  apply (frozen_scan_spec z (Z.to_nat max_iteration) 0%nat i Hscan); lia.
Qed.

Lemma loop_frozen z n : ∀ i st st',
  frozen_from z = true →
  (z ≤ i)%nat → (i + n ≤ Z.to_nat max_iteration)%nat →
  on_schedule i st → loop n (Z.of_nat i) st = Ok st' →
  same_search st st'.
Proof.
  induction n as [|n IHn]; intros i st st' Hz Hzi Hin S Hl; simpl in Hl.
  - by injection Hl as <-.
  - apply bind_Ok in Hl as ([f st1] & Hb & Hl). apply body_pass in Hb.
    pose proof (pass_on_schedule _ _ _ _ S Hb) as S1.
    assert (Hsame : same_search st st1).
    { eapply pass_frozen; [exact S| |exact Hb].
      apply (frozen_from_spec z); [done | lia]. }
    destruct f; [|by injection Hl as <-].
    replace (Z.of_nat i + 1) with (Z.of_nat (Datatypes.S i)) in Hl by lia.
    specialize (IHn (Datatypes.S i) st1 st' Hz ltac:(lia) ltac:(lia) S1 Hl).
    destruct Hsame as (? & ? & ? & ?), IHn as (? & ? & ? & ?).
    unfold same_search. repeat split; congruence.
Qed.


End ImprovedSchedule.

(** ** The baseline variant: the cooling schedule *)

Section BaselineSchedule.
Context `{Countable V}.
Variable G : Graph V.
Variable np_exp : float → float.
Variables (Max_Node : Z) (initial_temp cooling_rate : float).
Variable max_iteration : Z.

Import Baseline.

Local Abbreviation init := (init G Max_Node initial_temp).
Local Abbreviation propose := (propose G).
Local Abbreviation body := (body G np_exp cooling_rate).
Local Abbreviation loop := (loop G np_exp cooling_rate).
Local Abbreviation steady := (steady G).
Local Abbreviation schedule := (schedule initial_temp cooling_rate).
Local Abbreviation never_zero :=
  (never_zero initial_temp cooling_rate max_iteration).
Local Abbreviation first_sample g0 :=
  (list_to_set (sample_pool g0 (nodes G) (Z.to_nat Max_Node)).1 : gset V).

Implicit Types (st : state V) (g : rng).

Lemma never_zero_scan_spec n : ∀ i j,
  never_zero_scan cooling_rate n (schedule i) = true →
  (i ≤ j < i + n)%nat →
  PrimFloat.eqb (schedule j) 0 = false.
Proof.
  induction n as [|n IHn]; intros i j Hscan Hj; [lia|].
  simpl in Hscan. apply andb_true_iff in Hscan as [Hhere Hrest].
  destruct (decide (j = i)) as [->|Hne].
  - by apply negb_true_iff in Hhere.
  - apply (IHn (S i)); [exact Hrest|lia].
Qed.

Lemma never_zero_spec i :
  never_zero = true → (i < Z.to_nat max_iteration)%nat →
  PrimFloat.eqb (schedule i) 0 = false.
Proof.
  intros Hscan Hi.
  apply (never_zero_scan_spec (Z.to_nat max_iteration) 0%nat i Hscan). lia.
Qed.

Lemma baseline_body_temp st st' :
  body st = Ok st' →
  current_temp st' = cool cooling_rate (current_temp st).
Proof.
  intros (o & n & g1 & m3 & accepted & g2 & _ & _ & _ & ->)%baseline_body_Ok.
  unfold Baseline.update. destruct accepted; [case_decide|]; done.
Qed.

(** Away from the zero temperature a pass can only fail for want of a node
    to draw. *)
Lemma baseline_body_Raise_warm st e :
  PrimFloat.eqb (current_temp st) 0 = false →
  body st = Raise e → e = IndexError.
Proof.
  intros Hwarm Hb.
  destruct (propose st) as [[[o n] g1]|e'] eqn:Hp.
  - destruct (baseline_body_move G np_exp cooling_rate st o n g1 Hp)
      as (m3 & _ & _ & _ & Hb').
    rewrite Hb', baseline_accept_cases, Hwarm in Hb.
    by case_bool_decide.
  - destruct (baseline_body_Raise G np_exp cooling_rate st e Hb) as [-> | ->];
      [done|].
    unfold Baseline.body in Hb. rewrite Hp in Hb. injection Hb as ->.
    unfold Baseline.propose in Hp.
    destruct (choice (gen st) _) as [[o g1]|e1] eqn:Ho; simpl in Hp.
    + destruct (choice g1 _) as [[n g2]|e2] eqn:Hn; simpl in Hp; [done|].
      injection Hp as ->. by apply choice_Raise in Hn.
    + injection Hp as ->. by apply choice_Raise in Ho.
Qed.

(** With a member to take out, a node to put in and a temperature that is
    not zero, a pass returns. *)
Lemma baseline_body_total st :
  current st ≠ ∅ →
  (∃ v, v ∈ nodes G ∧ v ∉ current st) →
  PrimFloat.eqb (current_temp st) 0 = false →
  ∃ st', body st = Ok st'.
Proof.
  intros Hne (v & Hv & Hnot) Hwarm.
  assert (Hp : ∃ o n g1, propose st = Ok (o, n, g1)).
  { unfold Baseline.propose.
    destruct (choice_cons (gen st) (list_of_set (mem st) (current_solution st)))
      as (o & -> & _).
    { unfold list_of_set. intros He%elements_empty_inv. apply Hne.
      by apply leibniz_equiv. }
    simpl.
    destruct (choice_cons (advance (gen st))
                (filter (λ node, node ∉ current st) (nodes G)))
      as (n & -> & _).
    { intros Hnil.
      assert (Hin : v ∈ filter (λ node, node ∉ current st) (nodes G))
        by (by apply list_elem_of_filter).
      rewrite Hnil in Hin. by apply elem_of_nil in Hin. }
    simpl. eauto. }
  destruct Hp as (o & n & g1 & Hp).
  destruct (baseline_body_move G np_exp cooling_rate st o n g1 Hp)
    as (m3 & _ & _ & _ & ->).
  rewrite baseline_accept_cases, Hwarm.
  case_bool_decide; simpl; eauto.
Qed.

Lemma baseline_loop_Raise_warm n : ∀ i st e,
  never_zero = true → (i + n ≤ Z.to_nat max_iteration)%nat →
  current_temp st = schedule i →
  loop n st = Raise e → e = IndexError.
Proof.
  induction n as [|n IHn]; intros i st e Hnz Hin Ht Hl; simpl in Hl; [done|].
  assert (Hwarm : PrimFloat.eqb (current_temp st) 0 = false)
    by (rewrite Ht; apply never_zero_spec; [done | lia]).
  destruct (body st) as [st1|e1] eqn:Hb; simpl in Hl.
  - apply (IHn (S i) st1 e Hnz); [lia| |exact Hl].
    rewrite (baseline_body_temp _ _ Hb), Ht. done.
  - injection Hl as <-. by eapply baseline_body_Raise_warm.
Qed.

Lemma baseline_loop_total k c0 n : ∀ i st,
  never_zero = true → (i + n ≤ Z.to_nat max_iteration)%nat →
  (0 < k < size (list_to_set (nodes G) : gset V))%nat →
  steady k c0 st →
  current_temp st = schedule i →
  ∃ st', loop n st = Ok st'.
Proof.
  induction n as [|n IHn]; intros i st Hnz Hin Hk S Ht; simpl; [eauto|].
  assert (Hwarm : PrimFloat.eqb (current_temp st) 0 = false)
    by (rewrite Ht; apply never_zero_spec; [done | lia]).
  pose proof S as (L & [Hs Hsb] & [Wc Wb] & R).
  destruct (baseline_body_total st) as [st1 Hb]; [| |exact Hwarm|].
  - intros He. rewrite He, size_empty in Hs. lia.
  - destruct (filter (λ node, node ∉ current st) (nodes G)) as [|c cs] eqn:Hc.
    + exfalso.
      assert (Hsub : (list_to_set (nodes G) : gset V) ⊆ current st).
      { intros v Hv%elem_of_list_to_set.
        destruct (decide (v ∈ current st)) as [|Hnot]; [done|].
        assert (Hmem : v ∈ filter (λ node, node ∉ current st) (nodes G))
          by (by apply list_elem_of_filter).
        rewrite Hc in Hmem. by apply elem_of_nil in Hmem. }
      apply subseteq_size in Hsub. lia.
    + exists c.
      assert (Hmem : c ∈ filter (λ node, node ∉ current st) (nodes G))
        by (rewrite Hc; apply elem_of_cons; by left).
      by apply list_elem_of_filter in Hmem as [? ?].
  - rewrite Hb. simpl. apply (IHn (Datatypes.S i) st1 Hnz); [lia|exact Hk| |].
    + eapply baseline_body_steady; [exact S|exact Hb].
    + rewrite (baseline_body_temp _ _ Hb), Ht. done.
Qed.

(** X14. A schedule that never reaches zero. When the scheduled temperature
    is not zero at any index below [max_iteration], the baseline search does
    not raise [ZeroDivisionError]: it fails only with [ValueError], for a
    [Max_Node] out of range, or with [IndexError], for want of a node to
    draw. On a graph of distinct nodes with [0 < Max_Node] strictly below
    their number it returns a result. *)
Theorem baseline_warm_schedule g0 :
  Baseline.never_zero initial_temp cooling_rate max_iteration = true →
  (∀ e,
     simulated_annealing_VertexCover
       G np_exp Max_Node initial_temp cooling_rate max_iteration g0
     = Raise e →
     e = ValueError ∨ e = IndexError)
  ∧ (NoDup (nodes G) →
     0 < Max_Node < Z.of_nat (length (nodes G)) →
     ∃ cover c,
       simulated_annealing_VertexCover
         G np_exp Max_Node initial_temp cooling_rate max_iteration g0
       = Ok (cover, c)).
Proof.
  intros Hnz. unfold simulated_annealing_VertexCover. split.
  - intros e.
    destruct (decide (0 ≤ Max_Node ≤ Z.of_nat (length (nodes G)))) as [Hk|Hk].
    + destruct (baseline_init_Ok G Max_Node initial_temp g0 Hk)
        as (st0 & Hi & _ & _ & _ & _ & Ht).
      rewrite Hi. simpl.
      destruct (loop (Z.to_nat max_iteration) st0) as [st|e'] eqn:Hl; [done|].
      simpl. intros [= <-]. right.
      by apply (baseline_loop_Raise_warm (Z.to_nat max_iteration) 0%nat st0 e'
                  Hnz ltac:(lia) Ht Hl).
    + rewrite (baseline_init_Raise G Max_Node initial_temp g0 Hk). simpl.
      intros [= <-]. by left.
  - intros Hnd Hk.
    destruct (baseline_init_Ok G Max_Node initial_temp g0 ltac:(lia))
      as (st0 & Hi & S & _ & _ & _ & Ht).
    rewrite Hi. simpl.
    assert (Hk' : (0 < size (first_sample g0)
                   < size (list_to_set (nodes G) : gset V))%nat).
    { rewrite !size_list_to_set by (done || by apply sample_pool_NoDup).
      rewrite sample_pool_length by lia. lia. }
    destruct (baseline_loop_total _ _ (Z.to_nat max_iteration) 0%nat st0
                Hnz ltac:(lia) Hk' S Ht) as [st Hl].
    rewrite Hl. simpl. eauto.
Qed.

End BaselineSchedule.

(** ** The experiment driver *)

Section DriverFacts.
Context `{Countable V}.
Variable read_gexf : string → option (Graph V).
Variable np_exp : float → float.

Import Driver.

Local Abbreviation improved_search := (improved_search np_exp).
Local Abbreviation baseline_search := (baseline_search np_exp).

Section Batch.
Variable search : Graph V → Z → rng → result (list V * Z * rng).
Variable Max_Node_values : gmap string Z.

Local Abbreviation visit := (visit read_gexf search Max_Node_values).
Local Abbreviation visit_all := (visit_all read_gexf search Max_Node_values).

Local Abbreviation searched := (searched read_gexf Max_Node_values).

Lemma visit_Done results w name path results' w' :
  visit results w name path = Done (results', w') →
  ∃ graph, read_gexf path = Some graph
    ∧ ((results' = results
        ∧ (Max_Node_values !! name = None ∨ Max_Node_values !! name = Some 0))
       ∨ ∃ k g g' r,
           Max_Node_values !! name = Some k ∧ k ≠ 0
           ∧ search graph k g = Ok (vertex_cover r, covered_edges r, g')
           ∧ results' = <[name := r]> results).
Proof.
  unfold Driver.visit. destruct (read_gexf path) as [graph|]; [|done].
  intros Hv. exists graph. split; [done|].
  destruct (Max_Node_values !! name) as [k|]; [|injection Hv as <- <-; eauto].
  case_decide as Hk; [subst k; injection Hv as <- <-; eauto|].
  destruct (time w) as [start_time w1].
  destruct (search graph k (random_state w1)) as [[[cover covered] g']|e] eqn:Hs;
    [|done].
  destruct (time (with_random w1 g')) as [end_time w2].
  injection Hv as <- <-. right.
  by eexists k, _, g', (Entry covered _ cover).
Qed.

Lemma visit_Failed results w name path err :
  visit results w name path = Failed err →
  (read_gexf path = None ∧ err = LoadError path)
  ∨ ∃ graph k g e,
      read_gexf path = Some graph
      ∧ Max_Node_values !! name = Some k ∧ k ≠ 0
      ∧ search graph k g = Raise e ∧ err = SearchError e.
Proof.
  unfold Driver.visit. destruct (read_gexf path) as [graph|];
    [|intros [= <-]; by left].
  destruct (Max_Node_values !! name) as [k|]; [|done].
  case_decide as Hk; [done|].
  destruct (time w) as [start_time w1].
  destruct (search graph k (random_state w1)) as [[[cover covered] g']|e] eqn:Hs.
  - by destruct (time (with_random w1 g')).
  - intros [= <-]. right. by exists graph, k, (random_state w1), e.
Qed.

Lemma visit_all_Done items : ∀ results w results' w',
  visit_all items results w = Done (results', w') →
  (∀ name path, (name, path) ∈ items → is_Some (read_gexf path))
  ∧ (∀ name, name ∈ dom results' ↔
       name ∈ dom results
       ∨ ∃ path graph k, searched items name path graph k)
  ∧ (∀ name r, results' !! name = Some r →
       results !! name = Some r
       ∨ ∃ path graph k g g',
           searched items name path graph k
           ∧ search graph k g = Ok (vertex_cover r, covered_edges r, g')).
Proof.
  induction items as [|[name0 path0] items IHitems];
    intros results w results' w' Hv; simpl in Hv.
  { injection Hv as <- <-. split; [|split].
    - intros ? ? Hin. by apply elem_of_nil in Hin.
    - intros name. split; [by left|].
      intros [?|(? & ? & ? & Hin & _)]; [done | by apply elem_of_nil in Hin].
    - intros; by left. }
  destruct (visit results w name0 path0) as [[results1 w1]|err] eqn:Hv1;
    [|done].
  apply IHitems in Hv as (Hload & Hdom & Hent).
  apply visit_Done in Hv1 as (graph0 & Hg0 & Hcase).
  assert (Hmono : ∀ name path graph k,
            searched items name path graph k →
            searched ((name0, path0) :: items) name path graph k).
  { intros ? ? ? ? (Hin & ?). split; [by apply elem_of_cons; right|done]. }
  split; [|split].
  - intros name path [[= -> ->]|Hin]%elem_of_cons; [by rewrite Hg0|eauto].
  - intros name. rewrite Hdom. split.
    + intros [Hin|(path & graph & k & Hs)].
      * destruct Hcase as [[-> _]|(k & g & g' & r & Hk & Hk0 & _ & ->)];
          [by left|].
        apply elem_of_dom in Hin. rewrite lookup_insert in Hin.
        case_decide as Heq; [|left; by apply elem_of_dom].
        subst name0. right. exists path0, graph0, k.
        split; [by apply elem_of_cons; left|done].
      * right. exists path, graph, k. by apply Hmono.
    + intros [Hin|(path & graph & k & Hin & Hg & Hk & Hk0)].
      * left. destruct Hcase as [[-> _]|(? & ? & ? & r & _ & _ & _ & ->)];
          [done|].
        rewrite dom_insert. apply elem_of_union. by right.
      * apply elem_of_cons in Hin as [[= -> ->]|Hin].
        -- left. destruct Hcase as [[_ [Hn|Hz]]|(? & ? & ? & r & _ & _ & _ & ->)].
           ++ by rewrite Hn in Hk.
           ++ rewrite Hz in Hk. by injection Hk as <-.
           ++ rewrite dom_insert. apply elem_of_union. left.
              by apply elem_of_singleton.
        -- right. by exists path, graph, k.
  - intros name r Hr. destruct (Hent name r Hr) as [Hr1|Hs].
    + destruct Hcase as [[-> _]|(k & g & g' & r0 & Hk & Hk0 & Hs & ->)];
        [by left|].
      rewrite lookup_insert in Hr1. case_decide as Heq; [|by left].
      subst name0. injection Hr1 as <-. right.
      exists path0, graph0, k, g, g'. split; [|done].
      split; [by apply elem_of_cons; left|done].
    + destruct Hs as (path & graph & k & g & g' & Hs & Hok). right.
      exists path, graph, k, g, g'. split; [by apply Hmono|done].
Qed.

Lemma visit_all_Failed items : ∀ results w err,
  visit_all items results w = Failed err →
  (∃ name path, (name, path) ∈ items
                ∧ read_gexf path = None ∧ err = LoadError path)
  ∨ ∃ name path graph k g e,
      searched items name path graph k
      ∧ search graph k g = Raise e ∧ err = SearchError e.
Proof.
  induction items as [|[name0 path0] items IHitems];
    intros results w err Hv; simpl in Hv; [done|].
  destruct (visit results w name0 path0) as [[results1 w1]|err1] eqn:Hv1.
  - apply IHitems in Hv
      as [(name & path & Hin & ?)
         |(name & path & graph & k & g & e & (Hin & ?) & ?)].
    + left. exists name, path. split; [by apply elem_of_cons; right|done].
    + right. exists name, path, graph, k, g, e.
      split; [|done]. split; [by apply elem_of_cons; right|done].
  - injection Hv as <-.
    apply visit_Failed in Hv1
      as [[? ?]|(graph & k & g & e & ? & ? & ? & ? & ?)].
    + left. exists name0, path0. split; [by apply elem_of_cons; left|done].
    + right. exists name0, path0, graph, k, g, e.
      split; [|done]. split; [by apply elem_of_cons; left|done].
Qed.

End Batch.

(** In a dictionary's items a key has one value. *)
Lemma items_functional {A B} (l : list (A * B)) x y1 y2 :
  NoDup l.*1 → (x, y1) ∈ l → (x, y2) ∈ l → y1 = y2.
Proof.
  induction l as [|[a b] l IHl]; intros Hnd H1 H2.
  { by apply elem_of_nil in H1. }
  apply NoDup_cons in Hnd as [Hnot Hnd].
  assert (Hfst : ∀ y, (a, y) ∈ l → False).
  { intros y Hy. apply Hnot. apply list_elem_of_fmap. by exists (a, y). }
  apply elem_of_cons in H1 as [E1|H1]; apply elem_of_cons in H2 as [E2|H2];
    simplify_eq.
  - done.
  - by apply Hfst in H2.
  - by apply Hfst in H1.
  - by apply IHl.
Qed.

(** *** The searches the driver calls *)

Lemma improved_search_Ok (graph : Graph V) k g cover c g' :
  improved_search graph k g = Ok (cover, c, g') →
  0 ≤ k ≤ Z.of_nat (length (nodes graph))
  ∧ c = count_covered_edges graph (list_to_set cover)
  ∧ c ≤ Z.of_nat (size (edge_set graph))
  ∧ ∀ v, v ∈ cover → v ∈ nodes graph.
Proof.
  unfold Driver.improved_search. intros (st & Ha & Hr)%bind_Ok.
  injection Hr as <- <- <-.
  destruct (after_steady _ _ _ _ _ _ _ _ _ _ Ha)
    as ((_ & _ & Hcov) & [_ Wb] & _).
  split.
  - destruct (decide (0 ≤ k ≤ Z.of_nat (length (nodes graph)))) as [|Hk];
      [done|].
    unfold Improved.after in Ha.
    by rewrite (init_Raise graph k 1500%float g Hk) in Ha.
  - unfold list_of_set. rewrite list_to_set_elements_L.
    split; [exact Hcov|]. split.
    + rewrite Hcov. apply count_covered_edges_range.
    + intros v Hv%elem_of_elements. by apply Wb.
Qed.

Lemma improved_search_Raise (graph : Graph V) k g e :
  k ≠ 0 →
  improved_search graph k g = Raise e →
  e = ValueError ∧ ¬ (0 ≤ k ≤ Z.of_nat (length (nodes graph))).
Proof.
  intros Hk0. unfold Driver.improved_search.
  destruct (decide (0 ≤ k ≤ Z.of_nat (length (nodes graph)))) as [Hk|Hk].
  - destruct (after_Ok graph np_exp k 1500%float improved_cooling_rate
                1500 150 g (Z.to_nat 1500) ltac:(lia)) as (_ & st & Ha & _).
    by rewrite Ha.
  - unfold Improved.after.
    rewrite (init_Raise graph k 1500%float g Hk). simpl.
    by intros [= <-].
Qed.

Lemma baseline_search_Ok (graph : Graph V) k g cover c g' :
  baseline_search graph k g = Ok (cover, c, g') →
  0 ≤ k ≤ Z.of_nat (length (nodes graph))
  ∧ c = count_covered_edges graph (list_to_set cover)
  ∧ c ≤ Z.of_nat (size (edge_set graph))
  ∧ ∀ v, v ∈ cover → v ∈ nodes graph.
Proof.
  unfold Driver.baseline_search. intros (st & Ha & Hr)%bind_Ok.
  injection Hr as <- <- <-.
  destruct (baseline_after_steady _ _ _ _ _ _ _ _ Ha)
    as (Hk & (_ & _ & Hcov) & _ & [_ Wb] & _).
  split; [exact Hk|].
  unfold list_of_set. rewrite list_to_set_elements_L.
  split; [exact Hcov|]. split.
  - rewrite Hcov. apply count_covered_edges_range.
  - intros v Hv%elem_of_elements. by apply Wb.
Qed.

(** The baseline's default schedule, 1500 passes at rate 0.95 from 1500,
    stays away from zero. *)
Lemma baseline_default_schedule :
  Baseline.never_zero 1500%float baseline_cooling_rate 1500 = true.
Proof. vm_compute. reflexivity. Qed.

Lemma baseline_search_Raise (graph : Graph V) k g e :
  baseline_search graph k g = Raise e →
  (e = ValueError ∧ ¬ (0 ≤ k ≤ Z.of_nat (length (nodes graph))))
  ∨ (e = IndexError ∧ 0 ≤ k ≤ Z.of_nat (length (nodes graph))).
Proof.
  unfold Driver.baseline_search, Baseline.after.
  destruct (decide (0 ≤ k ≤ Z.of_nat (length (nodes graph)))) as [Hk|Hk].
  - destruct (baseline_init_Ok graph k 1500%float g Hk)
      as (st0 & Hi & _ & _ & _ & _ & Ht).
    rewrite Hi. remember (Z.to_nat 1500) as n eqn:Hn.
    unfold mbind at 2. unfold result_bind at 2.
    destruct (Baseline.loop graph np_exp baseline_cooling_rate n st0)
      as [st|e'] eqn:Hl; [done|].
    intros [= <-]. right. split; [|done].
    apply (baseline_loop_Raise_warm graph np_exp 1500%float
             baseline_cooling_rate 1500 n 0%nat st0 e'
             baseline_default_schedule); [lia|exact Ht|exact Hl].
  - rewrite (baseline_init_Raise graph k 1500%float g Hk). simpl.
    intros [= <-]. by left.
Qed.

(** X15. The keys of the results. When [run_algorithm] returns, with
    either search, every graph file of the batch has been read, and the
    names in the results are exactly the names of [graph_files] whose
    [Max_Node_values] entry is present and not [0]: a graph without a
    truthy [Max_Node] is read but not searched. *)
Theorem run_algorithm_keys Max_Node_values graph_files w results w' :
  improved_run_algorithm read_gexf np_exp Max_Node_values graph_files w
  = Done (results, w')
  ∨ baseline_run_algorithm read_gexf np_exp Max_Node_values graph_files w
    = Done (results, w') →
  (∀ name path, (name, path) ∈ graph_files → is_Some (read_gexf path))
  ∧ ∀ name,
      name ∈ dom results ↔
      ∃ path k, (name, path) ∈ graph_files
                ∧ Max_Node_values !! name = Some k ∧ k ≠ 0.
Proof.
  intros Hrun.
  assert (∃ search,
            Driver.visit_all read_gexf search Max_Node_values graph_files ∅ w
            = Done (results, w')) as [search Hv]
    by (destruct Hrun; eauto).
  apply visit_all_Done in Hv as (Hload & Hdom & _).
  split; [exact Hload|]. intros name. rewrite Hdom. split.
  - intros [Hin|(path & graph & k & Hin & _ & Hk & Hk0)];
      [by rewrite dom_empty in Hin | eauto].
  - intros (path & k & Hin & Hk & Hk0). right.
    destruct (Hload name path Hin) as [graph Hg].
    by exists path, graph, k.
Qed.

(** X16. The entries of the results. Every entry that [run_algorithm]
    returns, with either search, comes from an item of [graph_files] whose
    graph was read and whose [Max_Node] is in range and not [0]; its
    "Covered Edges" is the number of edges of that graph covered by its
    "Vertex Cover", at most the number of distinct edges; and its "Vertex
    Cover" holds only nodes of that graph. *)
Theorem run_algorithm_entries Max_Node_values graph_files w results w' :
  improved_run_algorithm read_gexf np_exp Max_Node_values graph_files w
  = Done (results, w')
  ∨ baseline_run_algorithm read_gexf np_exp Max_Node_values graph_files w
    = Done (results, w') →
  ∀ name r,
    results !! name = Some r →
    ∃ path graph k,
      Driver.searched read_gexf Max_Node_values graph_files name path graph k
      ∧ 0 ≤ k ≤ Z.of_nat (length (nodes graph))
      ∧ covered_edges r
        = count_covered_edges graph (list_to_set (vertex_cover r))
      ∧ covered_edges r ≤ Z.of_nat (size (edge_set graph))
      ∧ ∀ v, v ∈ vertex_cover r → v ∈ nodes graph.
Proof.
  intros [Hrun|Hrun] name r Hr;
    apply visit_all_Done in Hrun as (_ & _ & Hent);
    destruct (Hent name r Hr)
      as [Hemp|(path & graph & k & g & g' & Hs & Hok)];
    try (by rewrite lookup_empty in Hemp);
    exists path, graph, k; (split; [exact Hs|]).
  - by apply improved_search_Ok in Hok.
  - by apply baseline_search_Ok in Hok.
Qed.

(** X17. The failures of the driver. [run_algorithm] fails in these ways
    only: the loader fails on a path of the batch; or a search that was
    asked for raises. With the improved search that exception is
    [ValueError], for a [Max_Node] that is negative or larger than the
    number of nodes. With the baseline search it is that [ValueError] or an
    [IndexError] with [Max_Node] in range; the default schedule keeps the
    baseline away from [ZeroDivisionError]. *)
Theorem run_algorithm_failures Max_Node_values graph_files w err :
  (improved_run_algorithm read_gexf np_exp Max_Node_values graph_files w
   = Failed err →
   (∃ name path, (name, path) ∈ graph_files
                 ∧ read_gexf path = None ∧ err = LoadError path)
   ∨ (err = SearchError ValueError
      ∧ ∃ name path graph k,
          Driver.searched read_gexf Max_Node_values graph_files
            name path graph k
          ∧ ¬ (0 ≤ k ≤ Z.of_nat (length (nodes graph)))))
  ∧ (baseline_run_algorithm read_gexf np_exp Max_Node_values graph_files w
     = Failed err →
     (∃ name path, (name, path) ∈ graph_files
                   ∧ read_gexf path = None ∧ err = LoadError path)
     ∨ ∃ name path graph k,
         Driver.searched read_gexf Max_Node_values graph_files
           name path graph k
         ∧ ((err = SearchError ValueError
             ∧ ¬ (0 ≤ k ≤ Z.of_nat (length (nodes graph))))
            ∨ (err = SearchError IndexError
               ∧ 0 ≤ k ≤ Z.of_nat (length (nodes graph))))).
Proof.
  split; intros Hrun;
    apply visit_all_Failed in Hrun
      as [Hload|(name & path & graph & k & g & e & Hs & Hraise & ->)];
    try (by left); right.
  - pose proof Hs as (_ & _ & _ & Hk0).
    apply improved_search_Raise in Hraise as [-> Hk]; [|done].
    split; [done|]. by exists name, path, graph, k.
  - exists name, path, graph, k. split; [exact Hs|].
    apply baseline_search_Raise in Hraise as [[-> Hk]|[-> Hk]]; auto.
Qed.

(** X18. All or nothing. In a batch whose names are distinct, one item
    with a [Max_Node] that is negative or larger than the number of nodes
    of its graph makes [run_algorithm] fail, with either search: no result
    is returned for the other graphs. *)
Theorem run_algorithm_all_or_nothing
  Max_Node_values graph_files w name path (graph : Graph V) k :
  NoDup graph_files.*1 →
  Driver.searched read_gexf Max_Node_values graph_files name path graph k →
  ¬ (0 ≤ k ≤ Z.of_nat (length (nodes graph))) →
  (∃ err,
     improved_run_algorithm read_gexf np_exp Max_Node_values graph_files w
     = Failed err)
  ∧ (∃ err,
       baseline_run_algorithm read_gexf np_exp Max_Node_values graph_files w
       = Failed err).
Proof.
  intros Hnd (Hin & Hg & Hk & Hk0) Hout.
  assert (Hkey : ∀ search results w',
            Driver.visit_all read_gexf search Max_Node_values graph_files ∅ w
            = Done (results, w') →
            ∃ r g g', search graph k g
                      = Ok (vertex_cover r, covered_edges r, g')).
  { intros search results w' Hv.
    apply visit_all_Done in Hv as (_ & Hdom & Hent).
    assert (Hname : name ∈ dom results).
    { apply Hdom. right. by exists path, graph, k. }
    apply elem_of_dom in Hname as [r Hr].
    destruct (Hent name r Hr)
      as [Hemp|(path' & graph' & k' & g & g' & (Hin' & Hg' & Hk' & _) & Hok)];
      [by rewrite lookup_empty in Hemp|].
    assert (path' = path) as ->.
    { by eapply items_functional. }
    rewrite Hg in Hg'. injection Hg' as <-.
    rewrite Hk in Hk'. injection Hk' as <-. eauto. }
  split.
  - destruct (improved_run_algorithm read_gexf np_exp Max_Node_values
                graph_files w) as [[results w']|err] eqn:Hrun; [|eauto].
    destruct (Hkey _ _ _ Hrun) as (r & g & g' & Hok).
    by apply improved_search_Ok in Hok as [? _].
  - destruct (baseline_run_algorithm read_gexf np_exp Max_Node_values
                graph_files w) as [[results w']|err] eqn:Hrun; [|eauto].
    destruct (Hkey _ _ _ Hrun) as (r & g & g' & Hok).
    by apply baseline_search_Ok in Hok as [? _].
Qed.

End DriverFacts.

(** * The further properties on sample inputs *)

Import Samples.

Local Abbreviation improved_default G Max_Node g0 :=
  (Improved.improved_simulated_annealing_VertexCover
     G step_exp Max_Node 1500%float rate 1500 150 g0).
Local Abbreviation baseline_short G Max_Node max_iteration :=
  (Baseline.simulated_annealing_VertexCover
     G step_exp Max_Node 1500%float Driver.baseline_cooling_rate
     max_iteration (tape 0 0.5%float)).

(** The default schedule of the improved variant is positive up to index
    1144 and zero from index 1145 on. *)
Example improved_default_schedule :
  PrimFloat.ltb 0 (Improved.schedule 1500%float rate 1500 1144) = true
  ∧ Improved.schedule 1500%float rate 1500 1145 = 0%float
  ∧ Improved.frozen_from 1500%float rate 1500 1145 = true
  ∧ Improved.frozen_from 1500%float rate 1500 1144 = false.
Proof. vm_compute. repeat split; reflexivity. Qed.

(** *** X2 *)

Lemma improved_result_quality_witness :
  count_covered_edges cycle4
    (list_to_set (sample_pool (tape 0 0.5%float) (nodes cycle4) (Z.to_nat 2)).1)
  ≤ 4 ≤ Z.of_nat (size (edge_set cycle4))
  ∧ ∀ v, v ∈ [3; 1]%nat → v ∈ nodes cycle4.
Proof.
  apply (improved_result_quality cycle4 step_exp 2 1500%float rate 10 150
           (tape 0 0.5%float)).
  vm_compute. reflexivity.
Defined.

(** *** X3 *)

Lemma improved_walk_invariants_witness :
  ∃ st,
    Improved.after cycle4 step_exp 2 1500%float rate 10 150 4
      (tape 0 0.5%float) = Ok st
    ∧ count_covered_edges cycle4 (Improved.current st)
      ≤ Improved.best_covered st
    ∧ (∀ v, v ∈ Improved.current st → v ∈ nodes cycle4)
    ∧ 0 ≤ Improved.no_improvement_iterations st ≤ Z.max 0 150.
Proof.
  eexists. split.
  - vm_compute. reflexivity.
  - apply (improved_walk_invariants cycle4 step_exp 2 1500%float rate 10 150
             (tape 0 0.5%float) 4%nat).
    vm_compute. reflexivity.
Defined.

(** *** X4 *)

Lemma improved_exceptions_witness :
  improved_default single 0 (tape 0 0.5%float) = Raise IndexError.
Proof.
  apply (improved_exceptions single step_exp 0 1500%float rate 1500 150).
  right. repeat split; lia.
Defined.

(** *** X5 *)

Lemma improved_no_budget_witness :
  Improved.improved_simulated_annealing_VertexCover
    path3 step_exp 0 1500%float rate 1500 0 (tape 0 0.5%float)
  = Ok (elements (list_to_set
                    (sample_pool (tape 0 0.5%float) (nodes path3)
                       (Z.to_nat 0)).1 : gset nat),
        count_covered_edges path3
          (list_to_set (sample_pool (tape 0 0.5%float) (nodes path3)
                          (Z.to_nat 0)).1)).
Proof.
  apply (improved_no_budget path3 step_exp 0 1500%float rate 1500 0).
  - lia.
  - simpl. lia.
Defined.

(** *** X6 *)

Lemma improved_full_cover_witness :
  ∃ cover,
    improved_default cycle4 4 (tape 0 0.5%float)
    = Ok (cover, Z.of_nat (size (edge_set cycle4)))
    ∧ cover ≡ₚ nodes cycle4.
Proof.
  apply (improved_full_cover cycle4 step_exp 4 1500%float rate 1500 150).
  - apply (bool_decide_unpack _). vm_compute. exact I.
  - intros u v Huv. left.
    apply (bool_decide_unpack _).
    repeat (apply elem_of_cons in Huv as [[= -> ->]|Huv];
            [vm_compute; exact I|]).
    by apply elem_of_nil in Huv.
  - lia.
  - reflexivity.
Defined.

(** *** X7 *)

Example baseline_run_path3 : baseline_short path3 1 10 = Ok ([2%nat], 1).
Proof. vm_compute. reflexivity. Qed.

Lemma baseline_result_quality_witness :
  1 = count_covered_edges path3 (list_to_set [2%nat])
  ∧ count_covered_edges path3
      (list_to_set (sample_pool (tape 0 0.5%float) (nodes path3)
                      (Z.to_nat 1)).1)
    ≤ 1 ≤ Z.of_nat (size (edge_set path3))
  ∧ NoDup [2%nat]
  ∧ (∀ v, v ∈ [2%nat] → v ∈ nodes path3)
  ∧ (NoDup (nodes path3) → length [2%nat] = Z.to_nat 1).
Proof.
  apply (baseline_result_quality path3 step_exp 1 1500%float
           Driver.baseline_cooling_rate 10 (tape 0 0.5%float)).
  vm_compute. reflexivity.
Defined.

(** *** X8 *)

Lemma baseline_walk_invariants_witness :
  ∃ st,
    Baseline.after path3 step_exp 1 1500%float Driver.baseline_cooling_rate
      3 (tape 0 0.5%float) = Ok st
    ∧ Baseline.best_covered st
      = count_covered_edges path3 (Baseline.best st)
    ∧ count_covered_edges path3 (Baseline.current st)
      ≤ Baseline.best_covered st
    ∧ (∀ v, v ∈ Baseline.current st → v ∈ nodes path3)
    ∧ (NoDup (nodes path3) → size (Baseline.current st) = Z.to_nat 1).
Proof.
  eexists. split.
  - vm_compute. reflexivity.
  - apply (baseline_walk_invariants path3 step_exp 1 1500%float
             Driver.baseline_cooling_rate (tape 0 0.5%float) 3%nat).
    vm_compute. reflexivity.
Defined.

(** *** X9 *)


(** *** X10 *)

Lemma baseline_no_candidate_witness :
  baseline_short single 1 10 = Raise IndexError.
Proof.
  apply (baseline_no_candidate single step_exp 1 1500%float
           Driver.baseline_cooling_rate 10).
  - lia.
  - right. split; [|reflexivity].
    apply (bool_decide_unpack _). vm_compute. exact I.
Defined.

(** *** X11 *)

Lemma baseline_zero_temperature_witness :
  Baseline.body path3 step_exp Driver.baseline_cooling_rate cold_baseline_2
  = Raise ZeroDivisionError
  ∧ ∃ st',
      Baseline.body path3 step_exp Driver.baseline_cooling_rate
        cold_baseline_1 = Ok st'
      ∧ Baseline.best_covered st' = 1.
Proof.
  split.
  - apply (proj1 (baseline_zero_temperature path3 step_exp
                    Driver.baseline_cooling_rate cold_baseline_2
                    2%nat 3%nat (advance (advance (Baseline.gen cold_baseline_2)))
                    ltac:(vm_compute; reflexivity)
                    ltac:(vm_compute; reflexivity))).
    vm_compute. discriminate.
  - destruct (proj2 (baseline_zero_temperature path3 step_exp
                       Driver.baseline_cooling_rate cold_baseline_1
                       1%nat 2%nat
                       (advance (advance (Baseline.gen cold_baseline_1)))
                       ltac:(vm_compute; reflexivity)
                       ltac:(vm_compute; reflexivity)))
      as (st' & Hb & Hbc & _).
    + vm_compute. reflexivity.
    + exists st'. split; [exact Hb|]. rewrite Hbc. vm_compute. reflexivity.
Defined.

(** *** X12 *)

Lemma baseline_zero_iterations_witness :
  baseline_short single 1 (-2)
  = Ok (elements (list_to_set
                    (sample_pool (tape 0 0.5%float) (nodes single)
                       (Z.to_nat 1)).1 : gset nat),
        count_covered_edges single
          (list_to_set (sample_pool (tape 0 0.5%float) (nodes single)
                          (Z.to_nat 1)).1)).
Proof.
  apply (baseline_zero_iterations single step_exp 1 1500%float
           Driver.baseline_cooling_rate (-2)).
  - lia.
  - simpl. lia.
Defined.

(** *** X13 *)


(** *** X14 *)

Lemma baseline_warm_schedule_witness :
  ∃ cover c,
    Baseline.simulated_annealing_VertexCover
      cycle4 step_exp 2 1500%float Driver.baseline_cooling_rate 1500
      (tape 0 0.5%float) = Ok (cover, c).
Proof.
  apply (baseline_warm_schedule cycle4 step_exp 2 1500%float
           Driver.baseline_cooling_rate 1500 (tape 0 0.5%float)).
  - vm_compute. reflexivity.
  - apply (bool_decide_unpack _). vm_compute. exact I.
  - simpl. lia.
Defined.

(** *** X15 to X18

    A batch of two graphs: the ring is searched with two nodes, the path
    has a [Max_Node] of [0] and is read but not searched. *)

Local Abbreviation sizes := ({["ring" := 2; "path" := 0]} : gmap string Z).
Local Abbreviation wrong_sizes := ({["ring" := 2; "path" := 7]} : gmap string Z).

Example improved_batch :
  match Driver.improved_run_algorithm loader step_exp sizes batch
          start_of_day with
  | Driver.Done (results, w') =>
      elements (dom results) = ["ring"]
      ∧ (Driver.vertex_cover <$> results !! "ring") = Some [3; 1]%nat
      ∧ (Driver.covered_edges <$> results !! "ring") = Some 4
      ∧ Driver.ticks w' = 2%nat
  | Driver.Failed _ => False
  end.
Proof. vm_compute. repeat split; reflexivity. Qed.

Lemma run_algorithm_keys_witness :
  ∃ results w',
    Driver.improved_run_algorithm loader step_exp sizes batch start_of_day
    = Driver.Done (results, w')
    ∧ (∀ name path, (name, path) ∈ batch → is_Some (loader path))
    ∧ ∀ name,
        name ∈ dom results ↔
        ∃ path k, (name, path) ∈ batch ∧ sizes !! name = Some k ∧ k ≠ 0.
Proof.
  eexists _, _. split; [vm_compute; reflexivity|].
  eapply (run_algorithm_keys loader step_exp sizes batch start_of_day).
  left. vm_compute. reflexivity.
Defined.

Lemma run_algorithm_entries_witness :
  ∃ results w',
    Driver.baseline_run_algorithm loader step_exp sizes batch start_of_day
    = Driver.Done (results, w')
    ∧ ∀ name r,
        results !! name = Some r →
        ∃ path graph k,
          Driver.searched loader sizes batch name path graph k
          ∧ 0 ≤ k ≤ Z.of_nat (length (nodes graph))
          ∧ Driver.covered_edges r
            = count_covered_edges graph
                (list_to_set (Driver.vertex_cover r))
          ∧ Driver.covered_edges r ≤ Z.of_nat (size (edge_set graph))
          ∧ ∀ v, v ∈ Driver.vertex_cover r → v ∈ nodes graph.
Proof.
  eexists _, _. split; [vm_compute; reflexivity|].
  eapply (run_algorithm_entries loader step_exp sizes batch start_of_day).
  right. vm_compute. reflexivity.
Defined.

Lemma run_algorithm_failures_witness :
  (∃ name path, (name, path) ∈ batch
                ∧ loader path = None
                ∧ Driver.SearchError ValueError = Driver.LoadError path)
  ∨ (Driver.SearchError ValueError = Driver.SearchError ValueError
     ∧ ∃ name path graph k,
         Driver.searched loader wrong_sizes batch name path graph k
         ∧ ¬ (0 ≤ k ≤ Z.of_nat (length (nodes graph)))).
Proof.
  apply (proj1 (run_algorithm_failures loader step_exp wrong_sizes batch
                  start_of_day (Driver.SearchError ValueError))).
  vm_compute. reflexivity.
Defined.

Lemma run_algorithm_all_or_nothing_witness :
  (∃ err,
     Driver.improved_run_algorithm loader step_exp wrong_sizes batch
       start_of_day = Driver.Failed err)
  ∧ (∃ err,
       Driver.baseline_run_algorithm loader step_exp wrong_sizes batch
         start_of_day = Driver.Failed err).
Proof.
  apply (run_algorithm_all_or_nothing loader step_exp wrong_sizes batch
           start_of_day "path" "path.gexf" path3 7).
  - apply (bool_decide_unpack _). vm_compute. exact I.
  - split; [|split; [|split]].
    + apply elem_of_cons. right. apply elem_of_cons. by left.
    + reflexivity.
    + vm_compute. reflexivity.
    + lia.
  - simpl. lia.
Defined.
